(** * RSVP speed reader: the word-pacing engine of [src/app.js]

    A shallow embedding of the [RSVPReader] class: its word list, position,
    playing flag, interval handle and rate, the page elements it writes, and
    the host's table of live interval timers.  Methods are state-passing
    functions that keep the names of the source. *)

From Stdlib Require Import ZArith QArith List String Ascii Lia.
From stdpp Require Import base option list gmap.
Import ListNotations.
Open Scope nat_scope.

(** ** JavaScript strings

    A JavaScript string is a sequence of UTF-16 code units.  The tokenizer
    depends on which code units [\s] and [trim] treat as white space, so
    strings are lists of code units rather than byte strings. *)

Module Js.

Definition jsstring : Type := list N.

(** A string literal of the source, all of whose characters are ASCII. *)
Definition lit (s : string) : jsstring :=
  List.map N_of_ascii (list_ascii_of_string s).

(** ECMAScript [WhiteSpace] and [LineTerminator] code points.  The regular
    expression class [\s], [String.prototype.trim] and the white space that
    [parseInt] skips all use this one set. *)
Definition is_whitespace (c : N) : bool :=
  ((9 <=? c) && (c <=? 13)            (* TAB LF VT FF CR *)
   || (c =? 32) || (c =? 160)         (* SPACE, NO-BREAK SPACE *)
   || (c =? 5760)                     (* OGHAM SPACE MARK *)
   || ((8192 <=? c) && (c <=? 8202))  (* EN QUAD .. HAIR SPACE *)
   || (c =? 8232) || (c =? 8233)      (* LINE / PARAGRAPH SEPARATOR *)
   || (c =? 8239) || (c =? 8287)      (* NARROW NBSP, MEDIUM MATH SPACE *)
   || (c =? 12288) || (c =? 65279))%N (* IDEOGRAPHIC SPACE, ZWNBSP *).

Fixpoint trimStart (s : jsstring) : jsstring :=
  match s with
  | c :: rest => if is_whitespace c then trimStart rest else s
  | [] => []
  end.

Definition trimEnd (s : jsstring) : jsstring := rev (trimStart (rev s)).

(** [s.trim()] *)
Definition trim (s : jsstring) : jsstring := trimEnd (trimStart s).

(** [s.split(/\s+/)].  The separator matches a maximal run of white space, so
    the result lists the pieces between the runs; a run at the very start or
    end of [s] leaves an empty piece there, and the empty string splits into
    one empty piece.  [in_run] tells that the previous code unit belonged to
    a separator, which the present one then only extends. *)
Fixpoint split_from (in_run : bool) (s : jsstring) : list jsstring :=
  match s with
  | [] => [[]]
  | c :: rest =>
      if is_whitespace c then
        if in_run then split_from true rest else [] :: split_from true rest
      else
        match split_from false rest with
        | piece :: pieces => (c :: piece) :: pieces
        | [] => [[c]]
        end
  end.

Definition split_whitespace (s : jsstring) : list jsstring := split_from false s.

(** *** Numbers

    The rate is whatever [parseInt] returns: an integer, negative zero or
    [NaN].  Integers are exact here; the rounding of magnitudes above 2^53
    to the nearest double is not modelled. *)
Inductive number : Type :=
| NaN
| NegZero
| Int (z : Z).

(** The result of a division of an integer constant by a [number]: the
    quotient as an exact rational (before the rounding to a double), or one
    of the special values. *)
Inductive quotient : Type :=
| QNaN
| QInfinity (negative : bool)
| QFinite (q : Q).

Definition digit_value (radix c : N) : option N :=
  let v := (if (48 <=? c) && (c <=? 57) then Some (c - 48)
            else if (97 <=? c) && (c <=? 122) then Some (c - 87)
            else if (65 <=? c) && (c <=? 90) then Some (c - 55)
            else None)%N in
  match v with
  | Some d => if (d <? radix)%N then Some d else None
  | None => None
  end.

(** The value of the longest prefix of [s] made of digits of [radix];
    [acc] is [None] until a digit has been read. *)
Fixpoint parse_digits (radix : N) (acc : option N) (s : jsstring) : option N :=
  match s with
  | [] => acc
  | c :: rest =>
      match digit_value radix c with
      | Some d => parse_digits radix (Some (radix * default 0 acc + d)%N) rest
      | None => acc
      end
  end.

(** [parseInt(s)] with no radix argument: leading white space, an optional
    sign, an optional [0x] / [0X] prefix selecting radix 16, then digits. *)
Definition parseInt (s : jsstring) : number :=
  let s1 := trimStart s in
  let '(negative, s2) :=
    match s1 with
    | 45%N :: rest => (true, rest)
    | 43%N :: rest => (false, rest)
    | _ => (false, s1)
    end in
  let '(radix, s3) :=
    match s2 with
    | 48%N :: 120%N :: rest => (16%N, rest)
    | 48%N :: 88%N :: rest => (16%N, rest)
    | _ => (10%N, s2)
    end in
  match parse_digits radix None s3 with
  | None => NaN
  | Some 0%N => if negative then NegZero else Int 0
  | Some n => Int (if negative then - Z.of_N n else Z.of_N n)
  end.

(** [k / x] for an integer constant [k > 0]. *)
Definition divide (k : Z) (x : number) : quotient :=
  match x with
  | NaN => QNaN
  | NegZero => QInfinity true
  | Int 0 => QInfinity false
  | Int z => QFinite (inject_Z k / inject_Z z)
  end.

End Js.

Import Js.


(** ** The reader and its environment *)

(** The fields of the [RSVPReader] object (constructor, "State"), the
    properties of page elements that its methods assign, and the host side:
    the live interval timers with their delays, the next handle
    [setInterval] hands out, and the messages passed to [alert], latest
    first.

    Template strings are kept as the values they interpolate: the counter
    text [`${i} / ${n}`] as the pair [(i, n)], the rate label as the number.
    A style value computed in floating point (progress percentage, font size
    in rem) is the exact rational. *)
Record state : Type := Build_state {
  words : list jsstring;
  currentWordIndex : nat;
  isPlaying : bool;
  intervalId : option positive;
  wpm : number;
  wordDisplay_textContent : jsstring;
  wordDisplay_fontSize : Q;
  playBtn_disabled : bool;
  pauseBtn_disabled : bool;
  progressBar_width : Q;
  wordCounter_textContent : nat * nat;
  wpmValue_textContent : number;
  timers : gmap positive quotient;
  next_handle : positive;
  alerts : list jsstring
}.

(** Field assignments. *)
Definition set_words (v : list jsstring) (s : state) : state :=
  Build_state v (currentWordIndex s) (isPlaying s) (intervalId s) (wpm s)
    (wordDisplay_textContent s) (wordDisplay_fontSize s)
    (playBtn_disabled s) (pauseBtn_disabled s) (progressBar_width s)
    (wordCounter_textContent s) (wpmValue_textContent s) (timers s)
    (next_handle s) (alerts s).

Definition set_currentWordIndex (v : nat) (s : state) : state :=
  Build_state (words s) v (isPlaying s) (intervalId s) (wpm s)
    (wordDisplay_textContent s) (wordDisplay_fontSize s)
    (playBtn_disabled s) (pauseBtn_disabled s) (progressBar_width s)
    (wordCounter_textContent s) (wpmValue_textContent s) (timers s)
    (next_handle s) (alerts s).

Definition set_isPlaying (v : bool) (s : state) : state :=
  Build_state (words s) (currentWordIndex s) v (intervalId s) (wpm s)
    (wordDisplay_textContent s) (wordDisplay_fontSize s)
    (playBtn_disabled s) (pauseBtn_disabled s) (progressBar_width s)
    (wordCounter_textContent s) (wpmValue_textContent s) (timers s)
    (next_handle s) (alerts s).

Definition set_intervalId (v : option positive) (s : state) : state :=
  Build_state (words s) (currentWordIndex s) (isPlaying s) v (wpm s)
    (wordDisplay_textContent s) (wordDisplay_fontSize s)
    (playBtn_disabled s) (pauseBtn_disabled s) (progressBar_width s)
    (wordCounter_textContent s) (wpmValue_textContent s) (timers s)
    (next_handle s) (alerts s).

Definition set_wpm (v : number) (s : state) : state :=
  Build_state (words s) (currentWordIndex s) (isPlaying s) (intervalId s) v
    (wordDisplay_textContent s) (wordDisplay_fontSize s)
    (playBtn_disabled s) (pauseBtn_disabled s) (progressBar_width s)
    (wordCounter_textContent s) (wpmValue_textContent s) (timers s)
    (next_handle s) (alerts s).

Definition set_wordDisplay_textContent (v : jsstring) (s : state) : state :=
  Build_state (words s) (currentWordIndex s) (isPlaying s) (intervalId s)
    (wpm s) v (wordDisplay_fontSize s) (playBtn_disabled s)
    (pauseBtn_disabled s) (progressBar_width s) (wordCounter_textContent s)
    (wpmValue_textContent s) (timers s) (next_handle s) (alerts s).

Definition set_wordDisplay_fontSize (v : Q) (s : state) : state :=
  Build_state (words s) (currentWordIndex s) (isPlaying s) (intervalId s)
    (wpm s) (wordDisplay_textContent s) v (playBtn_disabled s)
    (pauseBtn_disabled s) (progressBar_width s) (wordCounter_textContent s)
    (wpmValue_textContent s) (timers s) (next_handle s) (alerts s).

Definition set_playBtn_disabled (v : bool) (s : state) : state :=
  Build_state (words s) (currentWordIndex s) (isPlaying s) (intervalId s)
    (wpm s) (wordDisplay_textContent s) (wordDisplay_fontSize s) v
    (pauseBtn_disabled s) (progressBar_width s) (wordCounter_textContent s)
    (wpmValue_textContent s) (timers s) (next_handle s) (alerts s).

Definition set_pauseBtn_disabled (v : bool) (s : state) : state :=
  Build_state (words s) (currentWordIndex s) (isPlaying s) (intervalId s)
    (wpm s) (wordDisplay_textContent s) (wordDisplay_fontSize s)
    (playBtn_disabled s) v (progressBar_width s) (wordCounter_textContent s)
    (wpmValue_textContent s) (timers s) (next_handle s) (alerts s).

Definition set_progressBar_width (v : Q) (s : state) : state :=
  Build_state (words s) (currentWordIndex s) (isPlaying s) (intervalId s)
    (wpm s) (wordDisplay_textContent s) (wordDisplay_fontSize s)
    (playBtn_disabled s) (pauseBtn_disabled s) v (wordCounter_textContent s)
    (wpmValue_textContent s) (timers s) (next_handle s) (alerts s).

Definition set_wordCounter_textContent (v : nat * nat) (s : state) : state :=
  Build_state (words s) (currentWordIndex s) (isPlaying s) (intervalId s)
    (wpm s) (wordDisplay_textContent s) (wordDisplay_fontSize s)
    (playBtn_disabled s) (pauseBtn_disabled s) (progressBar_width s) v
    (wpmValue_textContent s) (timers s) (next_handle s) (alerts s).

Definition set_wpmValue_textContent (v : number) (s : state) : state :=
  Build_state (words s) (currentWordIndex s) (isPlaying s) (intervalId s)
    (wpm s) (wordDisplay_textContent s) (wordDisplay_fontSize s)
    (playBtn_disabled s) (pauseBtn_disabled s) (progressBar_width s)
    (wordCounter_textContent s) v (timers s) (next_handle s) (alerts s).

Definition set_timers (v : gmap positive quotient) (s : state) : state :=
  Build_state (words s) (currentWordIndex s) (isPlaying s) (intervalId s)
    (wpm s) (wordDisplay_textContent s) (wordDisplay_fontSize s)
    (playBtn_disabled s) (pauseBtn_disabled s) (progressBar_width s)
    (wordCounter_textContent s) (wpmValue_textContent s) v (next_handle s)
    (alerts s).

Definition set_next_handle (v : positive) (s : state) : state :=
  Build_state (words s) (currentWordIndex s) (isPlaying s) (intervalId s)
    (wpm s) (wordDisplay_textContent s) (wordDisplay_fontSize s)
    (playBtn_disabled s) (pauseBtn_disabled s) (progressBar_width s)
    (wordCounter_textContent s) (wpmValue_textContent s) (timers s) v
    (alerts s).

Definition set_alerts (v : list jsstring) (s : state) : state :=
  Build_state (words s) (currentWordIndex s) (isPlaying s) (intervalId s)
    (wpm s) (wordDisplay_textContent s) (wordDisplay_fontSize s)
    (playBtn_disabled s) (pauseBtn_disabled s) (progressBar_width s)
    (wordCounter_textContent s) (wpmValue_textContent s) (timers s)
    (next_handle s) v.

(** *** Host functions *)

(** [setInterval(callback, delay)]: registers a timer under a fresh handle
    and returns the handle.  Every timer of the reader runs the same
    callback ([tick] below), so the table records only the delay. *)
Definition setInterval (delay : quotient) (s : state) : positive * state :=
  let id := next_handle s in
  (id, set_next_handle (Pos.succ id) (set_timers (<[id := delay]> (timers s)) s)).

(** [clearInterval(id)] *)
Definition clearInterval (id : positive) (s : state) : state :=
  set_timers (delete id (timers s)) s.

(** [alert(message)] *)
Definition alert (message : jsstring) (s : state) : state :=
  set_alerts (message :: alerts s) s.

(** *** String constants of the source *)

Definition msg_enter_text : jsstring := lit "Please enter some text first!".
Definition msg_ready : jsstring := lit "Ready to Start".
Definition msg_start : jsstring := lit "Start Reading".
(** ['Finished! '] followed by U+1F389, a surrogate pair in UTF-16. *)
Definition msg_finished : jsstring := lit "Finished! " ++ [55356%N; 57225%N].

Definition sampleText : jsstring :=
  lit "Welcome to the RSVP Speed Reader! This application uses Rapid Serial Visual Presentation to help you read faster. Simply paste your text or fetch an article from a URL, adjust your preferred reading speed using the slider below, and hit play. The technique works by displaying one word at a time, eliminating the need for eye movement and allowing you to focus entirely on comprehension. Start with a comfortable speed and gradually increase it as you become more proficient. Happy reading!".

(** *** Methods of [RSVPReader] *)

Definition updateWordCounter (s : state) : state :=
  set_wordCounter_textContent (currentWordIndex s, length (words s)) s.

Definition updateProgress (s : state) : state :=
  if length (words s) =? 0 then set_progressBar_width 0%Q s
  else
    let progress :=
      (inject_Z (Z.of_nat (currentWordIndex s))
         / inject_Z (Z.of_nat (length (words s))) * 100)%Q in
    set_progressBar_width progress s.

(** [!text || text.trim() === '']: the empty string is falsy. *)
Definition is_blank (text : jsstring) : bool :=
  (match text with [] => true | _ => false end)
  || (match trim text with [] => true | _ => false end).

(** [text.split(/\s+/).filter(word => word.length > 0).map(word => word.trim())] *)
Definition split_words (text : jsstring) : list jsstring :=
  List.map trim
    (List.filter (fun word => 0 <? length word) (split_whitespace text)).

(** The tokenizer: what [loadText] assigns to [this.words], on either branch. *)
Definition tokenize (text : jsstring) : list jsstring :=
  if is_blank text then [] else split_words text.

Definition loadText (text : jsstring) (s : state) : state :=
  if is_blank text then
    updateWordCounter (set_words [] s)
  else
    let s := set_words (split_words text) s in
    let s := set_currentWordIndex 0 s in
    let s := updateWordCounter s in
    let s := updateProgress s in
    if 0 <? length (words s) then set_wordDisplay_textContent msg_ready s
    else s.

(** [words[currentWordIndex]] is read inside the guard only; the default of
    [nth] stands for the [undefined] of a read past the end. *)
Definition displayWord (s : state) : state :=
  if currentWordIndex s <? length (words s) then
    let word := nth (currentWordIndex s) (words s) [] in
    let s := set_wordDisplay_textContent word s in
    let s := updateProgress s in
    let s := updateWordCounter s in
    let baseSize := (7 # 2)%Q in
    let wordLength := length word in
    let fontSize :=
      (if 15 <? wordLength then baseSize * (3 # 5)
       else if 10 <? wordLength then baseSize * (3 # 4)
       else if 7 <? wordLength then baseSize * (9 # 10)
       else baseSize)%Q in
    set_wordDisplay_fontSize fontSize s
  else s.

Definition pause (s : state) : state :=
  let s := set_isPlaying false s in
  let s := set_playBtn_disabled false s in
  let s := set_pauseBtn_disabled true s in
  match intervalId s with
  | Some id => set_intervalId None (clearInterval id s)
  | None => s
  end.

(** The callback that [play] hands to [setInterval]. *)
Definition tick (s : state) : state :=
  let s := set_currentWordIndex (S (currentWordIndex s)) s in
  if length (words s) <=? currentWordIndex s then
    set_wordDisplay_textContent msg_finished (pause s)
  else displayWord s.

(** [const msPerWord = 60000 / this.wpm] *)
Definition msPerWord (s : state) : quotient := divide 60000 (wpm s).

Definition play (s : state) : state :=
  if length (words s) =? 0 then alert msg_enter_text s
  else
    let s :=
      if length (words s) <=? currentWordIndex s
      then set_currentWordIndex 0 s else s in
    let s := set_isPlaying true s in
    let s := set_playBtn_disabled true s in
    let s := set_pauseBtn_disabled false s in
    let s := displayWord s in
    let '(id, s) := setInterval (msPerWord s) s in
    set_intervalId (Some id) s.

Definition reset (s : state) : state :=
  let s := pause s in
  let s := set_currentWordIndex 0 s in
  let s :=
    set_wordDisplay_textContent
      (if 0 <? length (words s) then msg_ready else msg_start) s in
  let s := updateProgress s in
  updateWordCounter s.

Definition updateWPM (value : jsstring) (s : state) : state :=
  let s := set_wpm (parseInt value) s in
  let s := set_wpmValue_textContent (wpm s) s in
  if isPlaying s then play (pause s) else s.

Definition loadSampleText (s : state) : state := loadText sampleText s.

(** *** Construction

    What the page's markup gives the elements before any script runs; the
    markup is not part of the sources, so it is a parameter. *)
Record markup : Type := {
  html_wordDisplay : jsstring;
  html_fontSize : Q;
  html_playBtn_disabled : bool;
  html_pauseBtn_disabled : bool;
  html_progress : Q;
  html_wordCounter : nat * nat;
  html_wpmValue : number
}.

(** [new RSVPReader()]: the constructor's assignments, then [init], whose
    only effect on this state is [loadSampleText]. *)
Definition new_RSVPReader (html : markup) : state :=
  loadSampleText
    {| words := [];
       currentWordIndex := 0;
       isPlaying := false;
       intervalId := None;
       wpm := Int 250;
       wordDisplay_textContent := html_wordDisplay html;
       wordDisplay_fontSize := html_fontSize html;
       playBtn_disabled := html_playBtn_disabled html;
       pauseBtn_disabled := html_pauseBtn_disabled html;
       progressBar_width := html_progress html;
       wordCounter_textContent := html_wordCounter html;
       wpmValue_textContent := html_wpmValue html;
       timers := ∅;
       next_handle := 1%positive;
       alerts := [] |}.

(** *** Events

    What can happen to a constructed reader: the listeners registered by
    [init], and the host running a timer's callback.  A disabled button
    dispatches no click, and a cleared timer never fires. *)
Inductive event : Type :=
| InputText (value : jsstring)     (* textarea input, or a fetched article *)
| ClickPlay
| ClickPause
| ClickReset
| SlideWPM (value : jsstring)
| TimerFires (id : positive).

Definition handle (e : event) (s : state) : state :=
  match e with
  | InputText value => loadText value s
  | ClickPlay => if playBtn_disabled s then s else play s
  | ClickPause => if pauseBtn_disabled s then s else pause s
  | ClickReset => reset s
  | SlideWPM value => updateWPM value s
  | TimerFires id =>
      match timers s !! id with
      | Some _ => tick s
      | None => s
      end
  end.

(** The state after a sequence of events, earliest first. *)
Definition run (events : list event) (s : state) : state :=
  fold_left (fun s e => handle e s) events s.

(** A plain page for the concrete checks: both buttons enabled, the display
    inviting the reader to start. *)
Definition plain_page : markup :=
  {| html_wordDisplay := msg_start;
     html_fontSize := (7 # 2)%Q;
     html_playBtn_disabled := false;
     html_pauseBtn_disabled := false;
     html_progress := 0%Q;
     html_wordCounter := (0, 0);
     html_wpmValue := Int 250 |}.

(** ** Definitions used in the statements and proofs *)

(** The pieces that survive the [filter]. *)
Definition pieces_of (in_run : bool) (s : jsstring) : list jsstring :=
  List.filter (fun word : jsstring => 0 <? length word) (split_from in_run s).

(** [pre] glued in front of the first piece: a word that started before the
    part of the text being split. *)
Definition prepend (pre : jsstring) (l : list jsstring) : list jsstring :=
  match l with
  | piece :: pieces => (pre ++ piece) :: pieces
  | [] => [pre]
  end.

(** Exactly the handle kept in [intervalId] is live, and only while
    playing; handles are never reused. *)
Definition timer_ok (s : state) : Prop :=
  match intervalId s with
  | Some id =>
      isPlaying s = true /\ (exists delay, timers s = {[ id := delay ]})
      /\ (id < next_handle s)%positive
  | None => isPlaying s = false /\ timers s = ∅
  end.

(** The play button is disabled while playing. *)
Definition button_ok (s : state) : Prop := isPlaying s = true -> playBtn_disabled s = true.

(** With words loaded, the position is within them, and short of the end
    while playing. *)
Definition position_ok (s : state) : Prop :=
  0 < length (words s) ->
  currentWordIndex s <= length (words s)
  /\ (isPlaying s = true -> currentWordIndex s < length (words s)).

Definition engine_inv (s : state) : Prop := timer_ok s /\ button_ok s /\ position_ok s.

(** Field reads through field assignments. *)
Ltac fields :=
  cbn [words currentWordIndex isPlaying intervalId wpm wordDisplay_textContent
       wordDisplay_fontSize playBtn_disabled pauseBtn_disabled progressBar_width
       wordCounter_textContent wpmValue_textContent timers next_handle alerts
       set_words set_currentWordIndex set_isPlaying set_intervalId set_wpm
       set_wordDisplay_textContent set_wordDisplay_fontSize set_playBtn_disabled
       set_pauseBtn_disabled set_progressBar_width set_wordCounter_textContent
       set_wpmValue_textContent set_timers set_next_handle set_alerts
       fst snd].

Ltac unfold_methods :=
  unfold reset, updateWPM, tick, play, pause, loadSampleText, loadText,
    displayWord, updateProgress, updateWordCounter, setInterval, clearInterval,
    alert, msPerWord in *.

(** *** Text extraction

    [text.replace(/X+/g, ' ')] for a class [X] of code units: every maximal
    run of [X] becomes one space.  [in_run] tells that the previous code
    unit belonged to a run, whose space has been written already. *)
Fixpoint replace_runs_from (sep : N -> bool) (in_run : bool) (s : jsstring)
  : jsstring :=
  match s with
  | [] => []
  | c :: rest =>
      if sep c then
        if in_run then replace_runs_from sep true rest
        else 32%N :: replace_runs_from sep true rest
      else c :: replace_runs_from sep false rest
  end.

Definition replace_runs (sep : N -> bool) (s : jsstring) : jsstring :=
  replace_runs_from sep false s.

(** The class [\n]. *)
Definition is_newline (c : N) : bool := (c =? 10)%N.

(** [extractTextFromHTML(html)].  Parsing the markup, removing elements and
    choosing the article are the host's work on a document;
    [content html] stands for its outcome [article.textContent || '']. *)
Definition extractTextFromHTML (content : jsstring -> jsstring) (html : jsstring)
  : jsstring :=
  let text := content html in
  trim (replace_runs is_newline (replace_runs is_whitespace text)).

(** [pieces.join(' ')] *)
Fixpoint join_spaces (pieces : list jsstring) : jsstring :=
  match pieces with
  | [] => []
  | [piece] => piece
  | piece :: rest => piece ++ 32%N :: join_spaces rest
  end.

(** The progress bar shows a percentage from 0 up to, but not including,
    100. *)
Definition progress_ok (s : state) : Prop :=
  (0 <= progressBar_width s)%Q /\ (progressBar_width s < 100)%Q.

(** The counter shows the number of loaded words, and the position or, once
    playback has stopped on the last tick, the position before it. *)
Definition counter_ok (s : state) : Prop :=
  snd (wordCounter_textContent s) = length (words s)
  /\ (fst (wordCounter_textContent s) = currentWordIndex s
      \/ (S (fst (wordCounter_textContent s)) = currentWordIndex s
          /\ isPlaying s = false)).

(** While playing with words loaded, the display shows the word at the
    position, or the ready message that a load has just put there. *)
Definition display_ok (s : state) : Prop :=
  isPlaying s = true -> 0 < length (words s) ->
  words s !! currentWordIndex s = Some (wordDisplay_textContent s)
  \/ wordDisplay_textContent s = msg_ready.

Definition page_inv (s : state) : Prop :=
  engine_inv s /\ progress_ok s /\ counter_ok s /\ display_ok s.

(** ** Checks of the embedding on concrete inputs *)

Example split_leading_trailing :
  split_whitespace (lit " a  b ") = [[]; lit "a"; lit "b"; []].
Proof. reflexivity. Qed.

Example split_empty : split_whitespace [] = [[]].
Proof. reflexivity. Qed.

Example parseInt_examples :
  parseInt (lit "250") = Int 250 /\ parseInt (lit " -12px") = Int (-12)
  /\ parseInt (lit "0x1F") = Int 31 /\ parseInt (lit "abc") = NaN
  /\ parseInt (lit "-0") = NegZero /\ parseInt (lit "") = NaN.
Proof. repeat split; reflexivity. Qed.

(** Three words played to the end: each tick shows the next word, and the
    tick after the last word stops the timer and shows the finished
    message. *)
Example three_words_played :
  let shown events :=
    let s := run events (new_RSVPReader plain_page) in
    (wordDisplay_textContent s, wordCounter_textContent s, isPlaying s,
     map_to_list (timers s)) in
  let start := [InputText (lit "alpha beta gamma"); ClickPlay] in
  let delay := QFinite (60000 # 250) in
  shown start = (lit "alpha", (0, 3), true, [(1%positive, delay)])
  /\ shown (start ++ [TimerFires 1])
     = (lit "beta", (1, 3), true, [(1%positive, delay)])
  /\ shown (start ++ [TimerFires 1; TimerFires 1])
     = (lit "gamma", (2, 3), true, [(1%positive, delay)])
  /\ shown (start ++ [TimerFires 1; TimerFires 1; TimerFires 1])
     = (msg_finished, (2, 3), false, []).
Proof. vm_compute. repeat split; reflexivity. Qed.

(** A click on the disabled play button does nothing, but [play] called
    twice in a row registers a second timer and forgets the first handle:
    the single-timer discipline rests on the button. *)
Example play_twice :
  let s := play (new_RSVPReader plain_page) in
  handle ClickPlay s = s
  /\ intervalId (play s) = Some 2%positive
  /\ List.map fst (map_to_list (timers (play s))) = [2%positive; 1%positive].
Proof. vm_compute. repeat split; reflexivity. Qed.

(** Clearing the text keeps the old position: the counter then reads
    "1 / 0". *)
Example counter_after_clearing :
  wordCounter_textContent
    (run [ClickPlay; TimerFires 1; InputText []] (new_RSVPReader plain_page))
  = (1, 0).
Proof. reflexivity. Qed.

(** ** The tokenizer *)

Section Tokenizer.

Implicit Types (s text word : jsstring) (c : N).

Local Abbreviation nonblank := (fun c : N => is_whitespace c = false).
Local Abbreviation has_length := (fun word : jsstring => 0 <? length word).

Lemma trimStart_no_whitespace s : Forall nonblank s -> trimStart s = s.
Proof. destruct 1 as [|c rest Hc _]; simpl; [done | by rewrite Hc]. Qed.

Lemma trim_no_whitespace s : Forall nonblank s -> trim s = s.
Proof.
  intros Hs. unfold trim, trimEnd.
  rewrite (trimStart_no_whitespace s Hs), trimStart_no_whitespace.
  - apply rev_involutive.
  - by apply Forall_rev.
Qed.

Lemma trimStart_nil s : trimStart s = [] <-> forallb is_whitespace s = true.
Proof.
  induction s as [|c rest IH]; simpl; [done |].
  destruct (is_whitespace c); simpl; [exact IH | split; discriminate].
Qed.

Lemma forallb_trimStart s :
  forallb is_whitespace (trimStart s) = forallb is_whitespace s.
Proof.
  induction s as [|c rest IH]; simpl; [done |].
  destruct (is_whitespace c) eqn:Hc; simpl; [exact IH | by rewrite Hc].
Qed.

Lemma forallb_rev s : forallb is_whitespace (rev s) = forallb is_whitespace s.
Proof.
  induction s as [|c rest IH]; simpl; [done |].
  rewrite forallb_app, IH. simpl. rewrite andb_true_r. apply andb_comm.
Qed.

Lemma trim_nil s : trim s = [] <-> forallb is_whitespace s = true.
Proof.
  unfold trim, trimEnd. rewrite <- (forallb_trimStart s).
  rewrite <- (forallb_rev (trimStart s)), <- trimStart_nil.
  split; intros H.
  - apply (f_equal (@rev N)) in H. by rewrite rev_involutive in H.
  - by rewrite H.
Qed.

(** The guard of [loadText] fires exactly on texts without a visible
    character. *)
Lemma is_blank_forallb text : is_blank text = forallb is_whitespace text.
Proof.
  unfold is_blank. destruct text as [|c rest]; [done |].
  cbn [orb]. destruct (forallb is_whitespace (c :: rest)) eqn:Hall.
  - apply trim_nil in Hall. by rewrite Hall.
  - destruct (trim (c :: rest)) eqn:Htrim; [| done].
    apply trim_nil in Htrim. congruence.
Qed.

Lemma split_from_cons in_run s : exists piece pieces, split_from in_run s = piece :: pieces.
Proof.
  revert in_run. induction s as [|c rest IH]; intros in_run; simpl; [by eauto |].
  destruct (is_whitespace c).
  - destruct in_run; [apply IH | by eauto].
  - destruct (IH false) as (p & ps & ->). by eauto.
Qed.

Lemma split_from_no_whitespace in_run s :
  Forall (Forall nonblank) (split_from in_run s).
Proof.
  revert in_run. induction s as [|c rest IH]; intros in_run; simpl.
  - by repeat constructor.
  - destruct (is_whitespace c) eqn:Hc.
    + destruct in_run; [apply IH | constructor; [constructor | apply IH]].
    + specialize (IH false). destruct (split_from false rest) as [|p ps].
      * by repeat constructor.
      * inversion_clear IH. by repeat constructor.
Qed.

Lemma concat_split_from in_run s :
  concat (split_from in_run s) = List.filter (fun c => negb (is_whitespace c)) s.
Proof.
  revert in_run. induction s as [|c rest IH]; intros in_run; simpl; [done |].
  destruct (is_whitespace c); simpl.
  - destruct in_run; simpl; apply IH.
  - specialize (IH false). destruct (split_from false rest) as [|p ps]; simpl in *.
    + by rewrite <- IH.
    + by rewrite <- IH.
Qed.

Lemma pieces_of_in_run s : pieces_of true s = pieces_of false s.
Proof.
  unfold pieces_of. destruct s as [|c rest]; simpl; [done |].
  by destruct (is_whitespace c).
Qed.

(** [map trim] changes nothing: no piece of the split holds white space. *)
Lemma split_words_pieces text : split_words text = pieces_of false text.
Proof.
  unfold split_words, pieces_of, split_whitespace.
  pose proof (split_from_no_whitespace false text) as Hall.
  induction Hall as [|p ps Hp _ IH]; simpl; [done |].
  destruct (0 <? length p); simpl; [| exact IH].
  by rewrite IH, (trim_no_whitespace p Hp).
Qed.

Lemma split_words_blank text : is_blank text = true -> split_words text = [].
Proof.
  rewrite is_blank_forallb, split_words_pieces. unfold pieces_of.
  generalize false. induction text as [|c rest IH]; intros in_run Hall; simpl; [done |].
  simpl in Hall. apply andb_prop in Hall as [-> Hrest].
  destruct in_run; simpl; by apply IH.
Qed.

(** The guard of [loadText] is subsumed by the split: [tokenize] is
    [split_words] on every text. *)
Lemma tokenize_split_words text : tokenize text = split_words text.
Proof.
  unfold tokenize. destruct (is_blank text) eqn:Hb; [| done].
  symmetry. by apply split_words_blank.
Qed.

Lemma tokenize_pieces text : tokenize text = pieces_of false text.
Proof. by rewrite tokenize_split_words, split_words_pieces. Qed.

Lemma concat_filter_has_length (l : list jsstring) :
  concat (List.filter has_length l) = concat l.
Proof.
  induction l as [|p ps IH]; simpl; [done |].
  destruct p; simpl; [exact IH | by rewrite IH].
Qed.

Lemma concat_tokenize text :
  concat (tokenize text) = List.filter (fun c => negb (is_whitespace c)) text.
Proof.
  rewrite tokenize_pieces. unfold pieces_of.
  by rewrite concat_filter_has_length, concat_split_from.
Qed.

Lemma tokenize_words_ok text :
  Forall (fun word => word <> [] /\ Forall nonblank word) (tokenize text).
Proof.
  rewrite tokenize_pieces. unfold pieces_of.
  pose proof (split_from_no_whitespace false text) as Hall.
  induction Hall as [|p ps Hp _ IH]; simpl; [constructor |].
  destruct p as [|c p]; simpl; [exact IH |].
  constructor; [by split | exact IH].
Qed.

Lemma tokenize_nonblank text : is_blank text = false -> tokenize text <> [].
Proof.
  rewrite is_blank_forallb. intros Hall Hnil.
  pose proof (concat_tokenize text) as Hc. rewrite Hnil in Hc. simpl in Hc.
  clear Hnil. induction text as [|c rest IH]; simpl in *; [done |].
  destruct (is_whitespace c); simpl in *; [by apply IH | done].
Qed.

Lemma split_from_visible in_run c s :
  is_whitespace c = false ->
  split_from in_run (c :: s) = prepend [c] (split_from false s).
Proof. intros Hc. simpl. rewrite Hc. by destruct (split_from false s). Qed.

Lemma prepend_prepend pre1 pre2 (l : list jsstring) :
  prepend pre1 (prepend pre2 l) = prepend (pre1 ++ pre2) l.
Proof. destruct l; simpl; by rewrite <- ?app_assoc. Qed.

Lemma pieces_app_whitespace_aux a c b :
  is_whitespace c = true ->
  (forall pre,
      List.filter has_length (prepend pre (split_from false (a ++ c :: b)))
      = List.filter has_length (prepend pre (split_from false a))
          ++ pieces_of true b)
  /\ pieces_of true (a ++ c :: b) = pieces_of true a ++ pieces_of true b.
Proof.
  intros Hc. unfold pieces_of.
  induction a as [|x a [IHf IHt]].
  - split; [intros pre |]; simpl; rewrite Hc; simpl; [| done].
    by destruct (0 <? length (pre ++ [])).
  - destruct (is_whitespace x) eqn:Hx.
    + split; [intros pre |]; simpl; rewrite Hx; simpl; [| exact IHt].
      rewrite IHt. by destruct (0 <? length (pre ++ [])).
    + split; [intros pre |].
      * rewrite <- app_comm_cons, !(split_from_visible _ x) by done.
        rewrite !prepend_prepend. apply IHf.
      * rewrite <- app_comm_cons, !(split_from_visible _ x) by done.
        apply IHf.
Qed.

Lemma prepend_nil (l : list jsstring) :
  List.filter has_length (prepend [] l) = List.filter has_length l.
Proof. by destruct l. Qed.

(** White space separates: the words of [a], then the words of [b]. *)
Lemma tokenize_app_whitespace a c b :
  is_whitespace c = true ->
  tokenize (a ++ c :: b) = tokenize a ++ tokenize b.
Proof.
  intros Hc. rewrite !tokenize_pieces.
  destruct (pieces_app_whitespace_aux a c b Hc) as [Hf _].
  specialize (Hf []). rewrite !prepend_nil in Hf.
  by rewrite <- (pieces_of_in_run b).
Qed.

(** A run of visible characters is one word. *)
Lemma tokenize_single_word word :
  word <> [] -> Forall nonblank word -> tokenize word = [word].
Proof.
  intros Hne Hall. rewrite tokenize_pieces. unfold pieces_of.
  assert (Hsplit : forall in_run, word <> [] -> split_from in_run word = [word]).
  { clear Hne. induction Hall as [|c rest Hc _ IH]; intros in_run Hne; [done |].
    simpl. rewrite Hc. destruct rest as [|c' rest']; [done |].
    by rewrite IH. }
  rewrite Hsplit by done. by destruct word.
Qed.

End Tokenizer.

(** ** The playback engine *)

Section Engine.

Implicit Types (s : state) (text value : jsstring) (e : event).

(** What [pause] does, field by field. *)
Lemma pause_spec s :
  pause s =
  set_intervalId None
    (set_timers (match intervalId s with
                 | Some id => delete id (timers s)
                 | None => timers s
                 end)
       (set_pauseBtn_disabled true
          (set_playBtn_disabled false (set_isPlaying false s)))).
Proof.
  unfold_methods. fields. destruct s as [? ? ? [id|] ? ? ? ? ? ? ? ? ? ? ?]; reflexivity.
Qed.

Lemma displayWord_frame s :
  words (displayWord s) = words s
  /\ currentWordIndex (displayWord s) = currentWordIndex s
  /\ isPlaying (displayWord s) = isPlaying s
  /\ intervalId (displayWord s) = intervalId s
  /\ wpm (displayWord s) = wpm s
  /\ playBtn_disabled (displayWord s) = playBtn_disabled s
  /\ pauseBtn_disabled (displayWord s) = pauseBtn_disabled s
  /\ timers (displayWord s) = timers s
  /\ next_handle (displayWord s) = next_handle s
  /\ alerts (displayWord s) = alerts s.
Proof.
  unfold displayWord, updateProgress, updateWordCounter.
  destruct (currentWordIndex s <? length (words s)); [| done].
  fields. by destruct (length (words s) =? 0).
Qed.

Lemma displayWord_text s :
  currentWordIndex s < length (words s) ->
  wordDisplay_textContent (displayWord s) = nth (currentWordIndex s) (words s) [].
Proof.
  intros Hlt. unfold displayWord, updateProgress, updateWordCounter.
  destruct (Nat.ltb_spec (currentWordIndex s) (length (words s))) as [_|]; [| lia].
  fields. by destruct (length (words s) =? 0).
Qed.

Lemma displayWord_past_end s :
  length (words s) <= currentWordIndex s -> displayWord s = s.
Proof.
  intros Hge. unfold displayWord.
  by destruct (Nat.ltb_spec (currentWordIndex s) (length (words s))) as [|_]; [lia |].
Qed.

Lemma engine_inv_displayWord s : engine_inv s -> engine_inv (displayWord s).
Proof.
  destruct (displayWord_frame s) as (Hw & Hi & Hp & Hid & _ & Hb & _ & Ht & Hn & _).
  unfold engine_inv, timer_ok, button_ok, position_ok.
  by rewrite Hw, Hi, Hp, Hid, Hb, Ht, Hn.
Qed.

Lemma engine_inv_pause s : engine_inv s -> engine_inv (pause s).
Proof.
  rewrite pause_spec. unfold engine_inv, timer_ok, button_ok, position_ok. fields.
  intros (Ht & _ & Hp). repeat split; try done.
  - destruct (intervalId s) as [id|]; [| by destruct Ht].
    destruct Ht as (_ & [delay ->] & _). apply delete_singleton_eq.
  - by apply Hp.
Qed.

(** What a successful [play] does, field by field. *)
Lemma play_fields s :
  0 < length (words s) ->
  let index :=
    if length (words s) <=? currentWordIndex s then 0 else currentWordIndex s in
  words (play s) = words s
  /\ currentWordIndex (play s) = index
  /\ index < length (words s)
  /\ isPlaying (play s) = true
  /\ intervalId (play s) = Some (next_handle s)
  /\ wpm (play s) = wpm s
  /\ playBtn_disabled (play s) = true
  /\ timers (play s) = <[ next_handle s := msPerWord s ]> (timers s)
  /\ next_handle (play s) = Pos.succ (next_handle s)
  /\ alerts (play s) = alerts s
  /\ wordDisplay_textContent (play s) = nth index (words s) [].
Proof.
  intros Hlen index. unfold play.
  destruct (Nat.eqb_spec (length (words s)) 0) as [Hz|_]; [lia |].
  set (s1 := if length (words s) <=? currentWordIndex s
             then set_currentWordIndex 0 s else s).
  assert (Hs1 : words s1 = words s /\ currentWordIndex s1 = index
                /\ timers s1 = timers s /\ next_handle s1 = next_handle s
                /\ alerts s1 = alerts s /\ wpm s1 = wpm s).
  { subst s1 index. by destruct (length (words s) <=? currentWordIndex s). }
  destruct Hs1 as (Hw & Hi & Ht & Hn & Ha & Hr).
  assert (Hlt : index < length (words s)).
  { subst index. destruct (Nat.leb_spec (length (words s)) (currentWordIndex s)); lia. }
  set (s2 := set_pauseBtn_disabled false
               (set_playBtn_disabled true (set_isPlaying true s1))).
  destruct (displayWord_frame s2) as (Hw3 & Hi3 & Hp3 & _ & Hr3 & Hb3 & _ & Ht3 & Hn3 & Ha3).
  assert (Htext : wordDisplay_textContent (displayWord s2) = nth index (words s) []).
  { rewrite displayWord_text; subst s2; fields; rewrite Hw, Hi; done. }
  unfold setInterval, msPerWord. fields.
  rewrite Hw3, Hi3, Hp3, Hr3, Hb3, Ht3, Hn3, Ha3, Htext. subst s2. fields.
  by rewrite Hw, Hi, Ht, Hn, Ha, Hr.
Qed.

(** [play] with nothing loaded only raises the alert. *)
Lemma play_empty s : length (words s) = 0 -> play s = alert msg_enter_text s.
Proof. intros Hz. unfold play. by rewrite Hz. Qed.

Lemma engine_inv_play s :
  isPlaying s = false -> engine_inv s -> engine_inv (play s).
Proof.
  intros Hidle (Ht & Hb & Hp).
  destruct (Nat.eq_dec (length (words s)) 0) as [Hz|Hnz].
  { rewrite (play_empty s Hz). by unfold alert. }
  destruct (play_fields s) as (Hw & Hi & Hlt & Hpl & Hid & _ & Hbt & Htm & Hn & _);
    [lia |].
  unfold engine_inv, timer_ok, button_ok, position_ok.
  rewrite Hw, Hi, Hpl, Hid, Hbt, Htm, Hn. repeat split; try done; try lia.
  unfold timer_ok in Ht. rewrite Hidle in Ht.
  destruct (intervalId s); destruct Ht as [? Ht]; [done |].
  exists (msPerWord s). by rewrite Ht, insert_empty.
Qed.

(** What [loadText] does to the engine: it replaces the words, and resets
    the position on the branch that has words.  The playing flag and the
    timer are not touched on either branch. *)
Lemma loadText_fields text s :
  words (loadText text s) = tokenize text
  /\ currentWordIndex (loadText text s)
     = (if is_blank text then currentWordIndex s else 0)
  /\ isPlaying (loadText text s) = isPlaying s
  /\ intervalId (loadText text s) = intervalId s
  /\ wpm (loadText text s) = wpm s
  /\ playBtn_disabled (loadText text s) = playBtn_disabled s
  /\ timers (loadText text s) = timers s
  /\ next_handle (loadText text s) = next_handle s
  /\ alerts (loadText text s) = alerts s.
Proof.
  unfold loadText, tokenize, updateProgress, updateWordCounter.
  destruct (is_blank text); fields; [done |].
  destruct (length (split_words text) =? 0); fields;
    by destruct (0 <? length (split_words text)).
Qed.

Lemma engine_inv_loadText text s : engine_inv s -> engine_inv (loadText text s).
Proof.
  destruct (loadText_fields text s) as (Hw & Hi & Hp & Hid & _ & Hb & Ht & Hn & _).
  unfold engine_inv, timer_ok, button_ok, position_ok.
  rewrite Hw, Hi, Hp, Hid, Hb, Ht, Hn. intros (Htm & Hbt & _).
  repeat split; try done.
  all: destruct (is_blank text) eqn:Hblank; [| lia].
  all: unfold tokenize in *; rewrite Hblank in *; simpl in *; lia.
Qed.

Lemma reset_fields s :
  words (reset s) = words s
  /\ currentWordIndex (reset s) = 0
  /\ isPlaying (reset s) = false
  /\ intervalId (reset s) = None
  /\ wpm (reset s) = wpm s
  /\ playBtn_disabled (reset s) = false
  /\ timers (reset s) = timers (pause s)
  /\ next_handle (reset s) = next_handle s
  /\ alerts (reset s) = alerts s.
Proof.
  unfold reset, updateProgress, updateWordCounter. rewrite !pause_spec. fields.
  by destruct (length (words s) =? 0).
Qed.

Lemma engine_inv_reset s : engine_inv s -> engine_inv (reset s).
Proof.
  intros Hinv. apply engine_inv_pause in Hinv. revert Hinv.
  destruct (reset_fields s) as (Hw & Hi & Hp & Hid & _ & Hb & Ht & Hn & _).
  unfold engine_inv, timer_ok, button_ok, position_ok.
  rewrite Hw, Hi, Hp, Hid, Hb, Ht. rewrite pause_spec. fields.
  intros ([_ Htm] & _ & _). repeat split; try done; lia.
Qed.

(** The two outcomes of the timer callback. *)
Lemma tick_cases s :
  let advanced := set_currentWordIndex (S (currentWordIndex s)) s in
  tick s =
  if length (words s) <=? S (currentWordIndex s)
  then set_wordDisplay_textContent msg_finished (pause advanced)
  else displayWord advanced.
Proof. reflexivity. Qed.

Lemma engine_inv_tick s :
  isPlaying s = true -> engine_inv s -> engine_inv (tick s).
Proof.
  intros Hplaying (Ht & Hb & Hp). rewrite tick_cases.
  destruct (Nat.leb_spec (length (words s)) (S (currentWordIndex s))) as [Hend|Hmore].
  - rewrite pause_spec. unfold engine_inv, timer_ok, button_ok, position_ok. fields.
    split; [split; [done |] | split; [done |]].
    + unfold timer_ok in Ht. destruct (intervalId s) as [id|]; [| by destruct Ht].
      destruct Ht as (_ & [delay ->] & _). apply delete_singleton_eq.
    + intros Hlen. destruct (Hp Hlen) as [_ Hlt]. specialize (Hlt Hplaying).
      split; [lia | done].
  - apply engine_inv_displayWord.
    unfold engine_inv, timer_ok, button_ok, position_ok. fields.
    split; [exact Ht | split; [exact Hb | intros _; lia]].
Qed.

Lemma updateWPM_cases value s :
  let rated := set_wpmValue_textContent (parseInt value) (set_wpm (parseInt value) s) in
  updateWPM value s = if isPlaying s then play (pause rated) else rated.
Proof. reflexivity. Qed.

Lemma engine_inv_set_wpm (rate label : number) s :
  engine_inv s -> engine_inv (set_wpmValue_textContent label (set_wpm rate s)).
Proof. done. Qed.

Lemma engine_inv_updateWPM value s : engine_inv s -> engine_inv (updateWPM value s).
Proof.
  intros Hinv. rewrite updateWPM_cases.
  apply (engine_inv_set_wpm (parseInt value) (parseInt value)) in Hinv.
  destruct (isPlaying s); [| done].
  apply engine_inv_play; [by rewrite pause_spec | by apply engine_inv_pause].
Qed.

Lemma engine_inv_handle e s : engine_inv s -> engine_inv (handle e s).
Proof.
  intros Hinv. destruct e as [text| | | |value|id]; simpl.
  - by apply engine_inv_loadText.
  - destruct (playBtn_disabled s) eqn:Hbtn; [done |].
    apply engine_inv_play; [| done].
    destruct Hinv as (_ & Hb & _). destruct (isPlaying s) eqn:Hplaying; [| done].
    specialize (Hb Hplaying). congruence.
  - destruct (pauseBtn_disabled s); [done | by apply engine_inv_pause].
  - by apply engine_inv_reset.
  - by apply engine_inv_updateWPM.
  - destruct (timers s !! id) as [delay|] eqn:Hlive; [| done].
    apply engine_inv_tick; [| done].
    destruct Hinv as (Ht & _ & _). unfold timer_ok in Ht.
    destruct (intervalId s); destruct Ht as [? Ht]; [done |].
    by rewrite Ht, lookup_empty in Hlive.
Qed.

Lemma engine_inv_run (events : list event) s :
  engine_inv s -> engine_inv (run events s).
Proof.
  revert s. induction events as [|e events IH]; intros s Hinv; [done |].
  apply IH. by apply engine_inv_handle.
Qed.

Lemma engine_inv_new (html : markup) : engine_inv (new_RSVPReader html).
Proof.
  apply engine_inv_loadText.
  unfold engine_inv, timer_ok, button_ok, position_ok. simpl.
  repeat split; try done; lia.
Qed.

(** Every state the page can reach satisfies the invariant. *)
Lemma engine_inv_reachable (html : markup) (events : list event) :
  engine_inv (run events (new_RSVPReader html)).
Proof. apply engine_inv_run, engine_inv_new. Qed.

End Engine.

(** ** The claims *)

Section Claims.

Implicit Types (s : state) (text value : jsstring) (html : markup).

Lemma lookup_nth (l : list jsstring) (i : nat) :
  i < length l -> l !! i = Some (nth i l []).
Proof.
  intros Hlt. destruct (lookup_lt_is_Some_2 l i Hlt) as [word Hword].
  rewrite Hword. f_equal. symmetry. by apply nth_lookup_Some.
Qed.

(** Counterexample to C1 as stated.  After the text box is cleared during
    playback the reader is still playing, its timer is live, and the
    position equals the length (both 0): the end position outside Finished.
    After one tick and the same clearing the position, 1, lies beyond the
    length, 0. *)
Lemma position_bound_counterexample :
  let loaded := new_RSVPReader plain_page in
  let cleared := run [ClickPlay; InputText []] loaded in
  let stale := run [ClickPlay; TimerFires 1; InputText []] loaded in
  (isPlaying cleared = true
   /\ timers cleared !! 1%positive = Some (QFinite (60000 # 250))
   /\ currentWordIndex cleared = 0 /\ length (words cleared) = 0)
  /\ (currentWordIndex stale = 1 /\ length (words stale) = 0).
Proof. vm_compute. repeat split; reflexivity. Qed.

(** C1 (amended).  In every state the page can reach, whenever words are
    loaded the position is at most their number, and it equals their number
    only with playback stopped and no timer live. *)
Theorem position_within_loaded_words html (events : list event) :
  let s := run events (new_RSVPReader html) in
  0 < length (words s) ->
  currentWordIndex s <= length (words s)
  /\ (currentWordIndex s = length (words s) ->
      isPlaying s = false /\ intervalId s = None /\ timers s = ∅).
Proof.
  intros s Hlen. destruct (engine_inv_reachable html events) as (Ht & _ & Hp).
  fold s in Ht, Hp. destruct (Hp Hlen) as [Hle Hlt]. split; [done |].
  intros Hend. unfold timer_ok in Ht.
  destruct (isPlaying s) eqn:Hplaying; [specialize (Hlt eq_refl); lia |].
  destruct (intervalId s); destruct Ht as [? Ht]; done.
Qed.

(** The theorem at a reader that has played the two words "to be" to the end. *)
Lemma position_within_loaded_words_witness :
  let s := run [InputText (lit "to be"); ClickPlay; TimerFires 1; TimerFires 1]
             (new_RSVPReader plain_page) in
  0 < length (words s)
  /\ currentWordIndex s = length (words s)
  /\ currentWordIndex s <= length (words s)
  /\ isPlaying s = false /\ intervalId s = None /\ timers s = ∅.
Proof.
  intros s.
  assert (Hlen : 0 < length (words s)) by (vm_compute; lia).
  assert (Hend : currentWordIndex s = length (words s)) by reflexivity.
  destruct (position_within_loaded_words plain_page
              [InputText (lit "to be"); ClickPlay; TimerFires 1; TimerFires 1]
              Hlen) as [Hle Hstop].
  exact (conj Hlen (conj Hend (conj Hle (Hstop Hend)))).
Defined.

(** Counterexample to C2 as stated.  A load during playback returns with the
    reader still playing, still holding handle 1, and with that timer still
    live. *)
Lemma load_while_playing_counterexample :
  let s := run [ClickPlay; InputText (lit "other words")]
             (new_RSVPReader plain_page) in
  isPlaying s = true /\ intervalId s = Some 1%positive
  /\ timers s !! 1%positive = Some (QFinite (60000 # 250)).
Proof. vm_compute. repeat split; reflexivity. Qed.

(** C2 (amended).  [loadText] succeeds from every state and for every text,
    raising no alert; the word sequence becomes the tokens of the text and,
    when the text has a word, the position becomes 0.  The playing flag,
    the handle and the live timers are as before the call, so the reader is
    left idle exactly when it was idle before. *)
Theorem loadText_replaces_words text s :
  let s' := loadText text s in
  alerts s' = alerts s
  /\ words s' = tokenize text
  /\ (is_blank text = false -> currentWordIndex s' = 0 /\ tokenize text <> [])
  /\ isPlaying s' = isPlaying s
  /\ intervalId s' = intervalId s
  /\ timers s' = timers s.
Proof.
  intros s'. subst s'.
  destruct (loadText_fields text s) as (Hw & Hi & Hp & Hid & _ & _ & Ht & _ & Ha).
  repeat split; try done.
  - rewrite Hi. by destruct (is_blank text).
  - by apply tokenize_nonblank.
Qed.

(** Counterexample to C3 as stated.  With the text box cleared during
    playback the reader is playing on an empty sequence; a rate change then
    stops the timer, raises the empty-sequence alert and leaves the reader
    not playing. *)
Lemma rate_change_stops_playback_counterexample :
  let s := run [ClickPlay; InputText []] (new_RSVPReader plain_page) in
  let s' := updateWPM (lit "400") s in
  (isPlaying s = true /\ timers s !! 1%positive = Some (QFinite (60000 # 250)))
  /\ (isPlaying s' = false /\ intervalId s' = None
      /\ map_to_list (timers s') = [] /\ alerts s' = [msg_enter_text]).
Proof. vm_compute. repeat split; reflexivity. Qed.

(** C3 (amended).  In every reachable state that is playing with words
    loaded, [updateWPM] is [pause] followed by [play] at the new rate: words
    and position are unchanged and the word shown is the one at that
    position; the old timer is gone and exactly one timer is live, with a
    fresh handle and the delay of the new rate; its next tick advances the
    position by one, and no other handle can tick. *)
Theorem updateWPM_keeps_position html (events : list event) value :
  let s := run events (new_RSVPReader html) in
  isPlaying s = true ->
  0 < length (words s) ->
  let rated :=
    set_wpmValue_textContent (parseInt value) (set_wpm (parseInt value) s) in
  let s' := updateWPM value s in
  s' = play (pause rated)
  /\ words s' = words s
  /\ currentWordIndex s' = currentWordIndex s
  /\ words s' !! currentWordIndex s' = Some (wordDisplay_textContent s')
  /\ isPlaying s' = true
  /\ wpm s' = parseInt value
  /\ intervalId s' = Some (next_handle s)
  /\ intervalId s <> Some (next_handle s)
  /\ timers s' = {[ next_handle s := divide 60000 (parseInt value) ]}
  /\ currentWordIndex (handle (TimerFires (next_handle s)) s')
     = S (currentWordIndex s)
  /\ (forall id, id <> next_handle s -> handle (TimerFires id) s' = s').
Proof.
  intros s Hplaying Hlen rated s'.
  destruct (engine_inv_reachable html events) as (Ht & _ & Hp). fold s in Ht, Hp.
  destruct (Hp Hlen) as [_ Hlt]. specialize (Hlt Hplaying).
  assert (Hs' : s' = play (pause rated)).
  { subst s'. rewrite updateWPM_cases. fold rated. by rewrite Hplaying. }
  assert (Hpw : words (pause rated) = words s) by (by rewrite pause_spec).
  assert (Hpi : currentWordIndex (pause rated) = currentWordIndex s)
    by (by rewrite pause_spec).
  assert (Hpn : next_handle (pause rated) = next_handle s) by (by rewrite pause_spec).
  assert (Hpt : timers (pause rated) = ∅).
  { rewrite pause_spec. subst rated. fields. unfold timer_ok in Ht.
    destruct (intervalId s) as [id|]; [| by destruct Ht].
    destruct Ht as (_ & [delay ->] & _). apply delete_singleton_eq. }
  destruct (play_fields (pause rated)) as
    (Hw & Hi & _ & Hpl & Hid & Hr & _ & Htm & _ & _ & Htext); [by rewrite Hpw |].
  rewrite Hpw, Hpi in Hi, Htext.
  destruct (Nat.leb_spec (length (words s)) (currentWordIndex s)) as [|_]; [lia |].
  rewrite Hpn in Hid. rewrite Hpn, Hpt, insert_empty in Htm.
  assert (Hrate : msPerWord (pause rated) = divide 60000 (parseInt value))
    by (by rewrite pause_spec).
  rewrite Hrate in Htm. rewrite Hs'.
  split; [done |]. split; [by rewrite Hw |]. split; [done |].
  split; [rewrite Hw, Hpw, Hi, Htext; by apply lookup_nth |].
  split; [done |]. split; [by rewrite Hr, pause_spec |]. split; [done |].
  split.
  { unfold timer_ok in Ht. destruct (intervalId s) as [id|]; [| done].
    destruct Ht as (_ & _ & Hfresh). intros [= ->]. lia. }
  split; [done |]. split.
  - simpl. rewrite Htm, lookup_singleton_eq, tick_cases.
    destruct (length (words (play (pause rated))) <=? S (currentWordIndex (play (pause rated)))).
    + rewrite pause_spec. fields. by rewrite Hi.
    + destruct (displayWord_frame
                  (set_currentWordIndex (S (currentWordIndex (play (pause rated))))
                     (play (pause rated)))) as (_ & -> & _).
      fields. by rewrite Hi.
  - intros id Hne. simpl. by rewrite Htm, lookup_singleton_ne.
Qed.

(** The theorem at a reader showing the second of three words, its rate
    changed to 400. *)
Lemma updateWPM_keeps_position_witness :
  let s := run [InputText (lit "alpha beta gamma"); ClickPlay; TimerFires 1]
             (new_RSVPReader plain_page) in
  let s' := updateWPM (lit "400") s in
  (isPlaying s = true /\ 0 < length (words s))
  /\ currentWordIndex s' = currentWordIndex s
  /\ words s' !! currentWordIndex s' = Some (wordDisplay_textContent s')
  /\ timers s' = {[ next_handle s := divide 60000 (parseInt (lit "400")) ]}.
Proof.
  intros s s'.
  assert (Hplaying : isPlaying s = true) by reflexivity.
  assert (Hlen : 0 < length (words s)) by (vm_compute; lia).
  destruct (updateWPM_keeps_position plain_page
              [InputText (lit "alpha beta gamma"); ClickPlay; TimerFires 1]
              (lit "400") Hplaying Hlen)
    as (_ & _ & Hi & Hword & _ & _ & _ & _ & Htm & _).
  exact (conj (conj Hplaying Hlen) (conj Hi (conj Hword Htm))).
Defined.

(** Counterexample to C4 as stated.  With the rate set to -100 or to 0,
    [play] raises nothing: it computes a negative or an infinite interval
    and starts a timer with it. *)
Lemma nonpositive_rate_counterexample :
  let negative := run [SlideWPM (lit "-100"); ClickPlay] (new_RSVPReader plain_page) in
  let zero := run [SlideWPM (lit "0"); ClickPlay] (new_RSVPReader plain_page) in
  (wpm negative = Int (-100) /\ alerts negative = [] /\ isPlaying negative = true
   /\ timers negative !! 1%positive = Some (QFinite (-60000 # 100)))
  /\ (wpm zero = Int 0 /\ alerts zero = [] /\ isPlaying zero = true
      /\ timers zero !! 1%positive = Some (QInfinity false)).
Proof. vm_compute. repeat split; reflexivity. Qed.

(** C4 (amended).  For an integer rate [r], the interval is the quotient
    60000 / r: positive for [r > 0], negative for [r < 0], and infinite for
    [r = 0].  No rate makes the computation fail: with words loaded, [play]
    starts a timer with that interval and raises no alert. *)
Theorem msPerWord_quotient (rate : Z) s :
  wpm s = Int rate ->
  (if (rate =? 0)%Z then msPerWord s = QInfinity false
   else exists q,
       msPerWord s = QFinite q
       /\ (q * inject_Z rate == 60000)%Q
       /\ ((0 < rate)%Z -> (q == 60000 # Z.to_pos rate)%Q /\ (0 < q)%Q)
       /\ ((rate < 0)%Z -> (q == - (60000 # Z.to_pos (- rate)))%Q /\ (q < 0)%Q))
  /\ (0 < length (words s) ->
      timers (play s) !! next_handle s = Some (msPerWord s)
      /\ isPlaying (play s) = true
      /\ alerts (play s) = alerts s).
Proof.
  intros Hrate. split.
  - unfold msPerWord. rewrite Hrate.
    destruct (Z.eqb_spec rate 0) as [->|Hnz]; [done |].
    exists (inject_Z 60000 / inject_Z rate)%Q.
    split; [by destruct rate |].
    split.
    { rewrite Qmult_comm. apply Qmult_div_r. unfold Qeq; simpl. lia. }
    split; intros Hsign; destruct rate as [|r|r]; try lia; simpl.
    + split; [| reflexivity].
      unfold Qeq, Qdiv, Qmult, Qinv, inject_Z; simpl. lia.
    + split; [| reflexivity].
      unfold Qeq, Qdiv, Qmult, Qinv, Qopp, inject_Z; simpl. lia.
  - intros Hlen.
    destruct (play_fields s Hlen) as (_ & _ & _ & Hpl & _ & _ & _ & Htm & _ & Ha & _).
    by rewrite Htm, lookup_insert_eq.
Qed.

(** The theorem at the default rate of 250 words per minute. *)
Lemma msPerWord_quotient_witness :
  let s := new_RSVPReader plain_page in
  wpm s = Int 250
  /\ (exists q, msPerWord s = QFinite q /\ (q == 60000 # 250)%Q /\ (0 < q)%Q)
  /\ timers (play s) !! next_handle s = Some (msPerWord s).
Proof.
  intros s.
  assert (Hrate : wpm s = Int 250) by reflexivity.
  destruct (msPerWord_quotient 250 s Hrate) as [(q & Hq & _ & Hpos & _) Hplay].
  destruct (Hpos ltac:(lia)) as [Heq Hlt].
  assert (Hlen : 0 < length (words s)) by (vm_compute; lia).
  destruct (Hplay Hlen) as (Htm & _).
  exact (conj Hrate (conj (ex_intro _ q (conj Hq (conj Heq Hlt))) Htm)).
Defined.

(** C5.  With no words loaded, [play] raises the please-enter-text alert and
    changes nothing else: the playing flag, position, handle and timers are
    as before.  The reader stays usable: after loading a text that has a
    word, [play] starts playback at its first word without a further
    alert. *)
Theorem play_empty_sequence s :
  length (words s) = 0 ->
  play s = set_alerts (msg_enter_text :: alerts s) s
  /\ words (play s) = words s
  /\ currentWordIndex (play s) = currentWordIndex s
  /\ isPlaying (play s) = isPlaying s
  /\ intervalId (play s) = intervalId s
  /\ timers (play s) = timers s
  /\ wordDisplay_textContent (play s) = wordDisplay_textContent s
  /\ (forall text,
        is_blank text = false ->
        let s' := play (loadText text (play s)) in
        isPlaying s' = true
        /\ words s' = tokenize text
        /\ currentWordIndex s' = 0
        /\ words s' !! 0 = Some (wordDisplay_textContent s')
        /\ alerts s' = alerts (play s)).
Proof.
  intros Hz. rewrite (play_empty s Hz). unfold alert.
  set (failed := set_alerts (msg_enter_text :: alerts s) s).
  do 7 (split; [done |]).
  intros text Hblank. cbv zeta.
  destruct (loadText_fields text failed) as (Hw & Hi & _ & _ & _ & _ & _ & _ & Ha).
  rewrite Hblank in Hi.
  pose proof (tokenize_nonblank text Hblank) as Hne.
  assert (Hlen : 0 < length (words (loadText text failed))).
  { rewrite Hw. destruct (tokenize text); [done | simpl; lia]. }
  destruct (play_fields _ Hlen)
    as (Hw' & Hi' & _ & Hpl & _ & _ & _ & _ & _ & Ha' & Htext).
  rewrite Hi in Hi', Htext.
  destruct (Nat.leb_spec (length (words (loadText text failed))) 0); [lia |].
  split; [done |]. split; [by rewrite Hw', Hw |]. split; [done |].
  split; [rewrite Hw', Htext; by apply lookup_nth |].
  by rewrite Ha', Ha.
Qed.

(** The theorem at a reader whose text box holds two spaces. *)
Lemma play_empty_sequence_witness :
  let s := run [InputText (lit "  ")] (new_RSVPReader plain_page) in
  length (words s) = 0
  /\ play s = set_alerts (msg_enter_text :: alerts s) s
  /\ isPlaying (play s) = isPlaying s.
Proof.
  intros s.
  assert (Hz : length (words s) = 0) by reflexivity.
  destruct (play_empty_sequence s Hz) as (Hplay & _ & _ & Hflag & _).
  exact (conj Hz (conj Hplay Hflag)).
Defined.

(** C6.  With words loaded, [play] starts at position 0 exactly when the
    position had reached the end of the words, and otherwise at the position
    it finds; the word shown is the one at the starting position.  [pause]
    keeps the position, so [play] after [pause] resumes where the reader
    was. *)
Theorem play_resumes_or_restarts s :
  0 < length (words s) ->
  let start :=
    if length (words s) <=? currentWordIndex s then 0 else currentWordIndex s in
  currentWordIndex (play s) = start
  /\ words (play s) !! start = Some (wordDisplay_textContent (play s))
  /\ isPlaying (play s) = true
  /\ currentWordIndex (pause s) = currentWordIndex s
  /\ currentWordIndex (play (pause s)) = start.
Proof.
  intros Hlen start.
  destruct (play_fields s Hlen) as (Hw & Hi & Hlt & Hpl & _ & _ & _ & _ & _ & _ & Htext).
  fold start in Hi, Hlt, Htext.
  split; [done |]. split; [rewrite Hw, Htext; by apply lookup_nth |].
  split; [done |]. split; [by rewrite pause_spec |].
  assert (Hlen' : 0 < length (words (pause s))) by (by rewrite pause_spec).
  destruct (play_fields (pause s) Hlen') as (_ & Hi' & _).
  rewrite Hi'. by rewrite pause_spec.
Qed.

(** The theorem at a reader paused on the second of three words, and at the
    same reader played to the end. *)
Lemma play_resumes_or_restarts_witness :
  let paused := run [InputText (lit "alpha beta gamma"); ClickPlay; TimerFires 1;
                     ClickPause] (new_RSVPReader plain_page) in
  let finished := run [ClickPlay; TimerFires 2; TimerFires 2] paused in
  (0 < length (words paused) /\ currentWordIndex paused = 1
   /\ currentWordIndex (play paused) = 1
   /\ wordDisplay_textContent (play paused) = lit "beta")
  /\ (0 < length (words finished) /\ currentWordIndex finished = 3
      /\ currentWordIndex (play finished) = 0
      /\ wordDisplay_textContent (play finished) = lit "alpha").
Proof.
  intros paused finished.
  assert (Hlen1 : 0 < length (words paused)) by (vm_compute; lia).
  assert (Hlen2 : 0 < length (words finished)) by (vm_compute; lia).
  destruct (play_resumes_or_restarts paused Hlen1) as (Hi1 & _).
  destruct (play_resumes_or_restarts finished Hlen2) as (Hi2 & _).
  split.
  - exact (conj Hlen1 (conj eq_refl (conj Hi1 eq_refl))).
  - exact (conj Hlen2 (conj eq_refl (conj Hi2 eq_refl))).
Defined.

(** Counterexample to C7 as stated.  Rates far outside any practical bound,
    and a value that is no number, are all accepted: the rate becomes what
    [parseInt] returned and no alert is raised. *)
Lemma out_of_bounds_rate_counterexample :
  let s := new_RSVPReader plain_page in
  wpm s = Int 250
  /\ (wpm (updateWPM (lit "5000") s) = Int 5000 /\ alerts (updateWPM (lit "5000") s) = [])
  /\ (wpm (updateWPM (lit "5") s) = Int 5 /\ alerts (updateWPM (lit "5") s) = [])
  /\ (wpm (updateWPM (lit "-7") s) = Int (-7) /\ alerts (updateWPM (lit "-7") s) = [])
  /\ (wpm (updateWPM (lit "fast") s) = NaN /\ alerts (updateWPM (lit "fast") s) = []).
Proof. vm_compute. repeat split; reflexivity. Qed.

(** C7 (amended).  [updateWPM] checks no bound: in every state and for every
    value the rate becomes [parseInt value].  It raises no rate error; the
    only alert it can raise is the empty-sequence one, when it restarts
    playback with no words loaded. *)
Theorem updateWPM_sets_any_rate value s :
  wpm (updateWPM value s) = parseInt value
  /\ alerts (updateWPM value s)
     = (if isPlaying s && (length (words s) =? 0)
        then msg_enter_text :: alerts s else alerts s).
Proof.
  rewrite updateWPM_cases.
  destruct (isPlaying s); [| done]. cbn [andb].
  set (rated := set_wpmValue_textContent _ _).
  assert (Hpw : words (pause rated) = words s) by (by rewrite pause_spec).
  destruct (Nat.eqb_spec (length (words s)) 0) as [Hz|Hnz].
  - rewrite play_empty by (by rewrite Hpw). unfold alert. by rewrite pause_spec.
  - destruct (play_fields (pause rated)) as (_ & _ & _ & _ & _ & Hr & _ & _ & _ & Ha & _);
      [rewrite Hpw; lia |].
    rewrite Hr, Ha. by rewrite pause_spec.
Qed.

(** Counterexample to C8 as stated.  [loadText] called during playback
    returns with the timer it found still live and still held in
    [intervalId]. *)
Lemma load_leaves_timer_counterexample :
  let s := run [ClickPlay] (new_RSVPReader plain_page) in
  let s' := loadText (lit "other words") s in
  timers s !! 1%positive = Some (QFinite (60000 # 250))
  /\ timers s' !! 1%positive = Some (QFinite (60000 # 250))
  /\ intervalId s' = Some 1%positive.
Proof. vm_compute. repeat split; reflexivity. Qed.

(** What the invariant says about the timers, and what [pause], [reset] and
    [loadText] do to them. *)
Lemma timers_of_invariant s :
  engine_inv s ->
  (if isPlaying s
   then exists id delay, intervalId s = Some id /\ timers s = {[ id := delay ]}
   else intervalId s = None /\ timers s = ∅)
  /\ (timers (pause s) = ∅ /\ intervalId (pause s) = None)
  /\ (timers (reset s) = ∅ /\ intervalId (reset s) = None)
  /\ (forall text, timers (loadText text s) = timers s
                   /\ intervalId (loadText text s) = intervalId s).
Proof.
  intros Hinv.
  assert (Hpause : timers (pause s) = ∅ /\ intervalId (pause s) = None).
  { pose proof (engine_inv_pause s Hinv) as (Hpause & _). unfold timer_ok in Hpause.
    replace (intervalId (pause s)) with (@None positive) in *
      by (by rewrite pause_spec).
    by destruct Hpause. }
  destruct Hinv as (Ht & _).
  destruct (reset_fields s) as (_ & _ & _ & Hrid & _ & _ & Hrtm & _).
  unfold timer_ok in Ht.
  split.
  { destruct (intervalId s) as [id|].
    - destruct Ht as (-> & [delay Htm] & _). by exists id, delay.
    - by destruct Ht as (-> & Htm). }
  split; [done |]. destruct Hpause as [Hptm _].
  split; [by rewrite Hrtm, Hrid, Hptm |].
  intros text. by destruct (loadText_fields text s) as (_ & _ & _ & -> & _ & _ & -> & _).
Qed.

(** C8 (amended).  In every state the page can reach, a timer is live if and
    only if the reader is playing, and then exactly one is live, the one
    whose handle [intervalId] holds.  [pause] and [reset] return with no
    timer live and no handle held.  [loadText] leaves the timers as it
    finds them. *)
Theorem one_timer_iff_playing html (events : list event) :
  let s := run events (new_RSVPReader html) in
  (if isPlaying s
   then exists id delay, intervalId s = Some id /\ timers s = {[ id := delay ]}
   else intervalId s = None /\ timers s = ∅)
  /\ (timers (pause s) = ∅ /\ intervalId (pause s) = None)
  /\ (timers (reset s) = ∅ /\ intervalId (reset s) = None)
  /\ (forall text, timers (loadText text s) = timers s
                   /\ intervalId (loadText text s) = intervalId s).
Proof.
  intros s. apply timers_of_invariant, engine_inv_reachable.
Qed.

(** C9.  Every token is non-empty and free of white space; a text that is
    empty or all white space has no tokens, any other text has some; the
    tokens, in order, are the visible characters of the text; the tokens of
    a text around a white-space character are those before it followed by
    those after it, and a run of visible characters is a single token; and
    [loadText] stores exactly the tokens, raising nothing. *)
Theorem tokenize_splits_on_whitespace text :
  Forall (fun word => word <> [] /\ Forall (fun c => is_whitespace c = false) word)
    (tokenize text)
  /\ (if forallb is_whitespace text then tokenize text = [] else tokenize text <> [])
  /\ concat (tokenize text) = List.filter (fun c => negb (is_whitespace c)) text
  /\ (forall before c after,
        text = before ++ c :: after -> is_whitespace c = true ->
        tokenize text = tokenize before ++ tokenize after)
  /\ (text <> [] -> Forall (fun c => is_whitespace c = false) text ->
      tokenize text = [text])
  /\ (forall s, words (loadText text s) = tokenize text
                /\ alerts (loadText text s) = alerts s).
Proof.
  split; [apply tokenize_words_ok |]. split.
  { rewrite <- is_blank_forallb. destruct (is_blank text) eqn:Hblank.
    - unfold tokenize. by rewrite Hblank.
    - by apply tokenize_nonblank. }
  split; [apply concat_tokenize |].
  split; [intros before c after -> Hc; by apply tokenize_app_whitespace |].
  split; [apply tokenize_single_word |].
  intros s. by destruct (loadText_fields text s) as (-> & _ & _ & _ & _ & _ & _ & _ & ->).
Qed.

(** C10.  [displayWord] reads [words] only at a position below the length,
    where the read finds a word, and shows that word; at any other position
    it changes nothing.  So a tick shows either the word at the next
    position, which exists, or the finished message, and [play] shows the
    word at its starting position, or nothing new when no words are
    loaded. *)
Theorem displayWord_in_bounds s :
  (if currentWordIndex s <? length (words s)
   then words s !! currentWordIndex s = Some (wordDisplay_textContent (displayWord s))
        /\ words (displayWord s) = words s
        /\ currentWordIndex (displayWord s) = currentWordIndex s
   else displayWord s = s)
  /\ (if S (currentWordIndex s) <? length (words s)
      then words s !! S (currentWordIndex s)
           = Some (wordDisplay_textContent (tick s))
      else wordDisplay_textContent (tick s) = msg_finished)
  /\ (if 0 <? length (words s)
      then words s !! currentWordIndex (play s)
           = Some (wordDisplay_textContent (play s))
      else wordDisplay_textContent (play s) = wordDisplay_textContent s).
Proof.
  split.
  - destruct (Nat.ltb_spec (currentWordIndex s) (length (words s))) as [Hlt|Hge].
    + destruct (displayWord_frame s) as (Hw & Hi & _).
      rewrite (displayWord_text s Hlt). split; [by apply lookup_nth | done].
    + by apply displayWord_past_end.
  - split.
    + rewrite tick_cases.
      destruct (Nat.ltb_spec (S (currentWordIndex s)) (length (words s))) as [Hlt|Hge].
      * destruct (Nat.leb_spec (length (words s)) (S (currentWordIndex s))); [lia |].
        rewrite displayWord_text by done. by apply lookup_nth.
      * destruct (Nat.leb_spec (length (words s)) (S (currentWordIndex s))); [| lia].
        done.
    + destruct (Nat.ltb_spec 0 (length (words s))) as [Hlen|Hz].
      * destruct (play_fields s Hlen) as (_ & -> & Hlt & _ & _ & _ & _ & _ & _ & _ & ->).
        by apply lookup_nth.
      * rewrite play_empty by lia. done.
Qed.

End Claims.

(** ** Text extraction *)

Section Extraction.

Implicit Types (s text word : jsstring) (c : N).

Local Abbreviation nonblank := (fun c : N => is_whitespace c = false).

Lemma replace_runs_from_none (sep : N -> bool) in_run s :
  Forall (fun c => sep c = false) s -> replace_runs_from sep in_run s = s.
Proof.
  intros Hall. revert in_run.
  induction Hall as [|c rest Hc _ IH]; intros in_run; simpl; [done |].
  by rewrite Hc, IH.
Qed.

Lemma replace_runs_from_no_newline in_run s :
  Forall (fun c => is_newline c = false)
    (replace_runs_from is_whitespace in_run s).
Proof.
  revert in_run. induction s as [|c rest IH]; intros in_run; simpl; [constructor |].
  destruct (is_whitespace c) eqn:Hc.
  - destruct in_run; [apply IH | constructor; [done | apply IH]].
  - constructor; [| apply IH].
    unfold is_newline. destruct (N.eqb_spec c 10) as [->|]; [done | done].
Qed.

Lemma trimStart_app_blank a b :
  forallb is_whitespace a = true -> trimStart (a ++ b) = trimStart b.
Proof.
  induction a as [|c a IH]; simpl; [done |].
  intros [Hc Ha]%andb_prop. rewrite Hc. by apply IH.
Qed.

Lemma trimStart_app_visible a b :
  trimStart a <> [] -> trimStart (a ++ b) = trimStart a ++ b.
Proof.
  induction a as [|c a IH]; simpl; [done |].
  destruct (is_whitespace c); [exact IH | done].
Qed.

Lemma trimEnd_nil s : trimEnd s = [] <-> forallb is_whitespace s = true.
Proof.
  unfold trimEnd. rewrite <- (forallb_rev s), <- trimStart_nil.
  split; intros H; [| by rewrite H].
  apply (f_equal (@rev N)) in H. by rewrite rev_involutive in H.
Qed.

Lemma trimEnd_app_blank x y :
  forallb is_whitespace y = true -> trimEnd (x ++ y) = trimEnd x.
Proof.
  intros Hy. unfold trimEnd. rewrite rev_app_distr.
  by rewrite trimStart_app_blank by (by rewrite forallb_rev).
Qed.

Lemma trimEnd_app_visible x y :
  trimEnd y <> [] -> trimEnd (x ++ y) = x ++ trimEnd y.
Proof.
  intros Hy. unfold trimEnd in *. rewrite rev_app_distr.
  rewrite trimStart_app_visible.
  - by rewrite rev_app_distr, rev_involutive.
  - intros Hnil. by rewrite Hnil in Hy.
Qed.

Lemma trimEnd_no_whitespace word : Forall nonblank word -> trimEnd word = word.
Proof.
  intros Hall. unfold trimEnd.
  rewrite trimStart_no_whitespace by (by apply Forall_rev).
  apply rev_involutive.
Qed.

Lemma trimStart_replace_runs in_run s :
  trimStart (replace_runs_from is_whitespace in_run s)
  = replace_runs_from is_whitespace true s.
Proof.
  revert in_run. induction s as [|c rest IH]; intros in_run; simpl; [done |].
  destruct (is_whitespace c) eqn:Hc.
  - destruct in_run; simpl; apply IH.
  - simpl. by rewrite Hc.
Qed.

Lemma pieces_of_nonempty in_run s : Forall (fun word => word <> []) (pieces_of in_run s).
Proof.
  unfold pieces_of. induction (split_from in_run s) as [|p ps IH]; simpl; [constructor |].
  destruct p; simpl; [exact IH | by constructor].
Qed.

Lemma join_spaces_cons word (rest : list jsstring) :
  join_spaces (word :: rest)
  = match rest with [] => word | _ :: _ => word ++ 32%N :: join_spaces rest end.
Proof. by destruct rest. Qed.

Lemma join_spaces_nil (pieces : list jsstring) :
  Forall (fun word => word <> []) pieces -> join_spaces pieces = [] -> pieces = [].
Proof.
  destruct 1 as [|p ps Hp _]; [done |].
  rewrite join_spaces_cons. destruct ps; [done |]. by destruct p.
Qed.

Lemma filter_cons_nonempty word (l : list jsstring) :
  word <> [] ->
  List.filter (fun w : jsstring => 0 <? length w) (word :: l)
  = word :: List.filter (fun w : jsstring => 0 <? length w) l.
Proof. by destruct word. Qed.

(** The run-collapsed text without its trailing space is the words joined
    by single spaces; the second part carries a word that began before
    [s]. *)
Lemma trimEnd_replace_runs s :
  trimEnd (replace_runs_from is_whitespace true s) = join_spaces (pieces_of true s)
  /\ (forall word,
        word <> [] -> Forall nonblank word ->
        trimEnd (word ++ replace_runs_from is_whitespace false s)
        = join_spaces
            (List.filter (fun w : jsstring => 0 <? length w)
               (prepend word (split_from false s)))).
Proof.
  induction s as [|c rest [IHt IHf]].
  - split; [done |]. intros word Hne Hall. simpl.
    rewrite !app_nil_r. destruct word; [done |]. simpl.
    by apply (trimEnd_no_whitespace (_ :: _)).
  - destruct (is_whitespace c) eqn:Hc.
    + split.
      { unfold pieces_of in *. simpl. by rewrite Hc. }
      intros word Hne Hall.
      assert (Hsplit : split_from false (c :: rest) = [] :: split_from true rest)
        by (simpl; by rewrite Hc).
      assert (Hrun : replace_runs_from is_whitespace false (c :: rest)
                     = 32%N :: replace_runs_from is_whitespace true rest)
        by (simpl; by rewrite Hc).
      rewrite Hsplit, Hrun. cbn [prepend]. rewrite app_nil_r.
      rewrite filter_cons_nonempty by done.
      fold (pieces_of true rest). rewrite join_spaces_cons.
      pose proof (pieces_of_nonempty true rest) as Hpieces.
      destruct (pieces_of true rest) as [|p ps] eqn:Htokens.
      * apply trimEnd_nil in IHt.
        rewrite trimEnd_app_blank by (simpl; exact IHt).
        by apply trimEnd_no_whitespace.
      * replace (word ++ 32%N :: replace_runs_from is_whitespace true rest)
          with ((word ++ [32%N]) ++ replace_runs_from is_whitespace true rest)
          by (by rewrite <- app_assoc).
        rewrite trimEnd_app_visible, IHt; [by rewrite <- app_assoc |].
        rewrite IHt. intros Hnil. apply join_spaces_nil in Hnil; [done |].
        exact Hpieces.
    + split.
      { unfold pieces_of. rewrite split_from_visible by done.
        simpl. rewrite Hc. apply (IHf [c]); [done | by repeat constructor]. }
      intros word Hne Hall. rewrite split_from_visible by done.
      rewrite prepend_prepend. simpl. rewrite Hc.
      replace (word ++ c :: replace_runs_from is_whitespace false rest)
        with ((word ++ [c]) ++ replace_runs_from is_whitespace false rest)
        by (by rewrite <- app_assoc).
      apply IHf; [by destruct word | ].
      apply Forall_app; split; [done | by repeat constructor].
Qed.

(** The words joined by spaces tokenize back to the words. *)
Lemma tokenize_join_spaces (pieces : list jsstring) :
  Forall (fun word => word <> [] /\ Forall nonblank word) pieces ->
  tokenize (join_spaces pieces) = pieces.
Proof.
  induction 1 as [|p ps [Hne Hp] _ IH]; [done |].
  rewrite join_spaces_cons. destruct ps as [|q qs].
  - by apply tokenize_single_word.
  - rewrite tokenize_app_whitespace by done.
    by rewrite IH, tokenize_single_word.
Qed.

Lemma extractTextFromHTML_join (content : jsstring -> jsstring) (html : jsstring) :
  extractTextFromHTML content html = join_spaces (tokenize (content html)).
Proof.
  unfold extractTextFromHTML, replace_runs.
  rewrite replace_runs_from_none by apply replace_runs_from_no_newline.
  unfold trim. rewrite trimStart_replace_runs.
  destruct (trimEnd_replace_runs (content html)) as [-> _].
  by rewrite tokenize_pieces, pieces_of_in_run.
Qed.

Lemma length_replace_runs_from (sep : N -> bool) in_run s :
  length (replace_runs_from sep in_run s) <= length s.
Proof.
  revert in_run. induction s as [|c rest IH]; intros in_run; simpl; [done |].
  pose proof (IH true). pose proof (IH false).
  destruct (sep c); [destruct in_run |]; simpl; lia.
Qed.

Lemma length_trimStart s : length (trimStart s) <= length s.
Proof.
  induction s as [|c rest IH]; simpl; [done |].
  destruct (is_whitespace c); simpl; lia.
Qed.

Lemma length_trim s : length (trim s) <= length s.
Proof.
  unfold trim, trimEnd. rewrite length_rev.
  pose proof (length_trimStart (rev (trimStart s))) as H1.
  pose proof (length_trimStart s) as H2.
  rewrite length_rev in H1. lia.
Qed.

(** X1.  The extracted text is the words of the element's text joined by single
    spaces, whatever white space separated or surrounded them; tokenizing
    it gives the same words as tokenizing the element's text. *)
Theorem extracted_text_joins_words (content : jsstring -> jsstring) (html : jsstring) :
  extractTextFromHTML content html = join_spaces (tokenize (content html))
  /\ tokenize (extractTextFromHTML content html) = tokenize (content html).
Proof.
  rewrite extractTextFromHTML_join. split; [done |].
  apply tokenize_join_spaces, tokenize_words_ok.
Qed.

(** X2.  Extraction is idempotent and never lengthens: extracting again from
    text that was extracted changes nothing, and the extracted text has at
    most as many code units as the element's text. *)
Theorem extraction_is_stable (content : jsstring -> jsstring) (html : jsstring) :
  extractTextFromHTML (fun text => text) (extractTextFromHTML content html)
  = extractTextFromHTML content html
  /\ length (extractTextFromHTML content html) <= length (content html).
Proof.
  split.
  - rewrite (extractTextFromHTML_join (fun text => text)).
    rewrite (extractTextFromHTML_join content).
    by rewrite tokenize_join_spaces by apply tokenize_words_ok.
  - unfold extractTextFromHTML, replace_runs. cbv zeta.
    pose proof (length_trim (replace_runs_from is_newline false
                               (replace_runs_from is_whitespace false (content html)))).
    pose proof (length_replace_runs_from is_newline false
                  (replace_runs_from is_whitespace false (content html))).
    pose proof (length_replace_runs_from is_whitespace false (content html)).
    lia.
Qed.

(** X3.  The second replacement of [extractTextFromHTML] never changes its
    input: after runs of white space have become single spaces, no line
    feed is left for it to replace. *)
Theorem newline_replacement_is_redundant text :
  replace_runs is_newline (replace_runs is_whitespace text)
  = replace_runs is_whitespace text.
Proof.
  unfold replace_runs. apply replace_runs_from_none, replace_runs_from_no_newline.
Qed.

End Extraction.

(** ** What the page shows *)

Section Presentation.

Implicit Types (s : state) (text value : jsstring) (e : event).

Lemma percent_bounds (i n : nat) :
  i < n ->
  (0 <= inject_Z (Z.of_nat i) / inject_Z (Z.of_nat n) * 100)%Q
  /\ (inject_Z (Z.of_nat i) / inject_Z (Z.of_nat n) * 100 < 100)%Q.
Proof.
  intros Hlt. destruct n as [|n]; [lia |].
  assert (Hi : (0 <= Z.of_nat i < Z.of_nat (S n))%Z) by lia.
  destruct (Z.of_nat (S n)) as [|p|p] eqn:Hn; try lia.
  unfold Qle, Qlt, Qdiv, Qmult, Qinv, inject_Z. simpl. lia.
Qed.

Lemma progress_ok_updateProgress s :
  currentWordIndex s < length (words s) \/ currentWordIndex s = 0 ->
  progress_ok (updateProgress s).
Proof.
  intros Hpos. unfold updateProgress, progress_ok.
  destruct (Nat.eqb_spec (length (words s)) 0) as [Hz|Hnz]; fields; [done |].
  apply percent_bounds. lia.
Qed.

(** What [displayWord] writes when its guard holds. *)
Lemma displayWord_shows s :
  currentWordIndex s < length (words s) ->
  wordCounter_textContent (displayWord s) = (currentWordIndex s, length (words s))
  /\ progress_ok (displayWord s).
Proof.
  intros Hlt. unfold displayWord.
  destruct (Nat.ltb_spec (currentWordIndex s) (length (words s))) as [_|]; [| lia].
  cbv zeta. split.
  - unfold updateWordCounter, updateProgress. fields.
    by destruct (length (words s) =? 0).
  - unfold progress_ok, updateWordCounter. fields.
    apply progress_ok_updateProgress. by left.
Qed.

Lemma pause_shown s :
  wordDisplay_textContent (pause s) = wordDisplay_textContent s
  /\ wordCounter_textContent (pause s) = wordCounter_textContent s
  /\ progressBar_width (pause s) = progressBar_width s.
Proof. by rewrite pause_spec. Qed.

Lemma play_shown s :
  0 < length (words s) ->
  wordCounter_textContent (play s) = (currentWordIndex (play s), length (words s))
  /\ progress_ok (play s).
Proof.
  intros Hlen.
  destruct (play_fields s Hlen) as (_ & Hi & Hlt & _). rewrite Hi. clear Hi.
  unfold play.
  destruct (Nat.eqb_spec (length (words s)) 0) as [Hz|_]; [lia |].
  set (s1 := if length (words s) <=? currentWordIndex s
             then set_currentWordIndex 0 s else s) in *.
  assert (Hs1 : words s1 = words s
                /\ currentWordIndex s1
                   = (if length (words s) <=? currentWordIndex s
                      then 0 else currentWordIndex s)).
  { subst s1. by destruct (length (words s) <=? currentWordIndex s). }
  destruct Hs1 as (Hw & Hi).
  set (s2 := set_pauseBtn_disabled false
               (set_playBtn_disabled true (set_isPlaying true s1))).
  destruct (displayWord_shows s2) as [Hcounter Hprog].
  { subst s2. fields. by rewrite Hw, Hi. }
  unfold setInterval, progress_ok in *. fields. rewrite Hcounter.
  subst s2. fields. by rewrite Hw, Hi.
Qed.

Lemma loadText_shown text s :
  if is_blank text
  then wordDisplay_textContent (loadText text s) = wordDisplay_textContent s
       /\ wordCounter_textContent (loadText text s) = (currentWordIndex s, 0)
       /\ progressBar_width (loadText text s) = progressBar_width s
  else wordDisplay_textContent (loadText text s) = msg_ready
       /\ wordCounter_textContent (loadText text s) = (0, length (tokenize text))
       /\ progress_ok (loadText text s).
Proof.
  pose proof (tokenize_nonblank text) as Hne.
  unfold loadText, tokenize in *. destruct (is_blank text); [done |].
  specialize (Hne eq_refl).
  set (s1 := set_currentWordIndex 0 (set_words (split_words text) s)).
  pose proof (progress_ok_updateProgress (updateWordCounter s1)) as Hprog.
  assert (Hlen : 0 < length (split_words text))
    by (destruct (split_words text); [done | simpl; lia]).
  assert (Hw : words (updateProgress (updateWordCounter s1)) = split_words text).
  { unfold updateProgress, updateWordCounter. subst s1. fields.
    by destruct (length (split_words text) =? 0). }
  cbv zeta. fold s1. rewrite Hw.
  destruct (Nat.ltb_spec 0 (length (split_words text))) as [_|]; [| lia].
  unfold progress_ok in *. fields. split; [done |]. split.
  - unfold updateProgress, updateWordCounter. subst s1. fields.
    by destruct (length (split_words text) =? 0).
  - apply Hprog. by right.
Qed.

Lemma reset_shown s :
  wordDisplay_textContent (reset s)
  = (if 0 <? length (words s) then msg_ready else msg_start)
  /\ wordCounter_textContent (reset s) = (0, length (words s))
  /\ progress_ok (reset s).
Proof.
  unfold reset. cbv zeta.
  set (s1 := set_wordDisplay_textContent _ _).
  pose proof (progress_ok_updateProgress s1) as Hprog.
  assert (Hs1 : words s1 = words s /\ currentWordIndex s1 = 0
                /\ wordDisplay_textContent s1
                   = (if 0 <? length (words s) then msg_ready else msg_start)).
  { subst s1. fields. by rewrite pause_spec. }
  destruct Hs1 as (Hw & Hi & Htext).
  assert (Hup : words (updateProgress s1) = words s1
                /\ currentWordIndex (updateProgress s1) = currentWordIndex s1
                /\ wordDisplay_textContent (updateProgress s1)
                   = wordDisplay_textContent s1).
  { unfold updateProgress. by destruct (length (words s1) =? 0). }
  destruct Hup as (Hw' & Hi' & Htext').
  unfold progress_ok, updateWordCounter in *. fields.
  rewrite Hw', Hi', Htext', Hw, Hi, Htext.
  split; [done |]. split; [done |]. apply Hprog. by right.
Qed.

Lemma page_inv_pause s : page_inv s -> page_inv (pause s).
Proof.
  intros (He & Hp & (Hn & Hc) & _).
  destruct (pause_shown s) as (_ & Hcounter & Hprog).
  split; [by apply engine_inv_pause |].
  unfold progress_ok, counter_ok, display_ok. rewrite Hcounter, Hprog.
  split; [done |]. split; [| by rewrite pause_spec].
  rewrite pause_spec. fields. split; [done |].
  destruct Hc as [Hc|[Hc _]]; [by left | by right].
Qed.

Lemma page_inv_alert (message : jsstring) s : page_inv s -> page_inv (alert message s).
Proof. done. Qed.

Lemma page_inv_play s : isPlaying s = false -> page_inv s -> page_inv (play s).
Proof.
  intros Hidle Hinv.
  destruct (Nat.eq_dec (length (words s)) 0) as [Hz|Hnz].
  { rewrite (play_empty s Hz). by apply page_inv_alert. }
  assert (Hlen : 0 < length (words s)) by lia.
  destruct Hinv as (He & _).
  destruct (play_fields s Hlen) as (Hw & Hi & Hlt & _ & _ & _ & _ & _ & _ & _ & Htext).
  destruct (play_shown s Hlen) as [Hcounter Hprog].
  split; [by apply engine_inv_play |]. split; [done |].
  unfold counter_ok, display_ok. rewrite Hcounter, Hw, Htext, Hi. fields.
  split; [split; [done | by left] |].
  intros _ _. left. by apply lookup_nth.
Qed.

Lemma page_inv_loadText_nonblank text s :
  is_blank text = false -> engine_inv s -> page_inv (loadText text s).
Proof.
  intros Hblank He.
  pose proof (loadText_shown text s) as Hshown. rewrite Hblank in Hshown.
  destruct Hshown as (Htext & Hcounter & Hprog).
  destruct (loadText_fields text s) as (Hw & Hi & _). rewrite Hblank in Hi.
  split; [by apply engine_inv_loadText |]. split; [done |].
  unfold counter_ok, display_ok. rewrite Hcounter, Hw, Hi, Htext. fields.
  split; [split; [done | by left] |]. intros _ _. by right.
Qed.

Lemma page_inv_loadText text s : page_inv s -> page_inv (loadText text s).
Proof.
  intros (He & Hp & _).
  destruct (is_blank text) eqn:Hblank; [| by apply page_inv_loadText_nonblank].
  pose proof (loadText_shown text s) as Hshown. rewrite Hblank in Hshown.
  destruct Hshown as (_ & Hcounter & Hprog).
  destruct (loadText_fields text s) as (Hw & Hi & _). rewrite Hblank in Hi.
  assert (Hnil : tokenize text = []) by (unfold tokenize; by rewrite Hblank).
  split; [by apply engine_inv_loadText |].
  unfold progress_ok, counter_ok, display_ok. rewrite Hcounter, Hprog, Hw, Hi, Hnil.
  split; [done |]. split; [split; [done | by left] |].
  simpl. intros _ Hlen. lia.
Qed.

Lemma page_inv_reset s : page_inv s -> page_inv (reset s).
Proof.
  intros (He & _).
  destruct (reset_shown s) as (_ & Hcounter & Hprog).
  destruct (reset_fields s) as (Hw & Hi & Hp & _).
  split; [by apply engine_inv_reset |]. split; [done |].
  unfold counter_ok, display_ok. rewrite Hcounter, Hw, Hi, Hp. fields.
  split; [split; [done | by left] | done].
Qed.

Lemma page_inv_tick s : isPlaying s = true -> page_inv s -> page_inv (tick s).
Proof.
  intros Hplaying (He & Hp & (Hn & Hc) & _).
  split; [by apply engine_inv_tick |]. rewrite tick_cases.
  destruct (Nat.leb_spec (length (words s)) (S (currentWordIndex s))) as [Hend|Hmore].
  - rewrite pause_spec. unfold progress_ok, counter_ok, display_ok. fields.
    split; [done |]. split; [| done]. split; [done |]. right.
    destruct Hc as [Hc|[_ Hc]]; [by rewrite Hc | congruence].
  - set (advanced := set_currentWordIndex (S (currentWordIndex s)) s).
    destruct (displayWord_shows advanced) as [Hcounter Hprog]; [done |].
    destruct (displayWord_frame advanced) as (Hw & Hi & _).
    split; [done |].
    unfold counter_ok, display_ok. rewrite Hcounter, Hw, Hi. subst advanced. fields.
    split; [split; [done | by left] |]. intros _ _. left.
    rewrite displayWord_text by done. fields. by apply lookup_nth.
Qed.

Lemma page_inv_updateWPM value s : page_inv s -> page_inv (updateWPM value s).
Proof.
  intros Hinv. rewrite updateWPM_cases.
  assert (Hrated : page_inv (set_wpmValue_textContent (parseInt value)
                               (set_wpm (parseInt value) s))) by done.
  destruct (isPlaying s); [| done].
  apply page_inv_play; [by rewrite pause_spec | by apply page_inv_pause].
Qed.

Lemma page_inv_handle e s : page_inv s -> page_inv (handle e s).
Proof.
  intros Hinv. destruct e as [text| | | |value|id]; simpl.
  - by apply page_inv_loadText.
  - destruct (playBtn_disabled s) eqn:Hbtn; [done |].
    apply page_inv_play; [| done].
    destruct Hinv as ((_ & Hb & _) & _).
    destruct (isPlaying s) eqn:Hplaying; [| done].
    specialize (Hb Hplaying). congruence.
  - destruct (pauseBtn_disabled s); [done | by apply page_inv_pause].
  - by apply page_inv_reset.
  - by apply page_inv_updateWPM.
  - destruct (timers s !! id) as [delay|] eqn:Hlive; [| done].
    apply page_inv_tick; [| done].
    destruct Hinv as ((Ht & _) & _). unfold timer_ok in Ht.
    destruct (intervalId s); destruct Ht as [? Ht]; [done |].
    by rewrite Ht, lookup_empty in Hlive.
Qed.

Lemma page_inv_run (events : list event) s : page_inv s -> page_inv (run events s).
Proof.
  revert s. induction events as [|e events IH]; intros s Hinv; [done |].
  apply IH. by apply page_inv_handle.
Qed.

Lemma is_blank_sampleText : is_blank sampleText = false.
Proof. vm_compute. reflexivity. Qed.

Lemma page_inv_reachable (html : markup) (events : list event) :
  page_inv (run events (new_RSVPReader html)).
Proof.
  apply page_inv_run. unfold new_RSVPReader, loadSampleText.
  apply page_inv_loadText_nonblank; [exact is_blank_sampleText |].
  unfold engine_inv, timer_ok, button_ok, position_ok. simpl.
  repeat split; try done; lia.
Qed.

(** X12.  In every state the page can reach, the progress bar shows at least 0%
    and less than 100%: it is updated only at position 0 or at a position
    that holds a word, so the last tick leaves it short of the end. *)
Theorem progress_stays_below_100 (html : markup) (events : list event) :
  let s := run events (new_RSVPReader html) in
  (0 <= progressBar_width s)%Q /\ (progressBar_width s < 100)%Q.
Proof. intros s. by destruct (page_inv_reachable html events) as (_ & Hp & _). Qed.

(** X13.  In every state the page can reach, the counter's total is the number
    of loaded words, and its position is the reader's position, or the one
    before it once the last tick has stopped playback. *)
Theorem counter_tracks_position (html : markup) (events : list event) :
  let s := run events (new_RSVPReader html) in
  snd (wordCounter_textContent s) = length (words s)
  /\ (fst (wordCounter_textContent s) = currentWordIndex s
      \/ (S (fst (wordCounter_textContent s)) = currentWordIndex s
          /\ isPlaying s = false)).
Proof. intros s. by destruct (page_inv_reachable html events) as (_ & _ & Hc & _). Qed.

(** X14.  In every reachable state that is playing with words loaded, the display
    shows the word at the position, or the ready message when a text was
    loaded since the last word was shown. *)
Theorem display_shows_current_word (html : markup) (events : list event) :
  let s := run events (new_RSVPReader html) in
  isPlaying s = true ->
  0 < length (words s) ->
  words s !! currentWordIndex s = Some (wordDisplay_textContent s)
  \/ wordDisplay_textContent s = msg_ready.
Proof.
  intros s. destruct (page_inv_reachable html events) as (_ & _ & _ & Hd). exact Hd.
Qed.

(** The theorem after one tick of three words, where the second word is
    shown, and after a load during playback, where the ready message is. *)
Lemma display_shows_current_word_witness :
  let ticked := run [InputText (lit "alpha beta gamma"); ClickPlay; TimerFires 1]
                  (new_RSVPReader plain_page) in
  let loaded := run [InputText (lit "alpha beta gamma"); ClickPlay; TimerFires 1;
                     InputText (lit "delta")] (new_RSVPReader plain_page) in
  (isPlaying ticked = true /\ 0 < length (words ticked)
   /\ wordDisplay_textContent ticked = lit "beta"
   /\ (words ticked !! currentWordIndex ticked = Some (wordDisplay_textContent ticked)
       \/ wordDisplay_textContent ticked = msg_ready))
  /\ (isPlaying loaded = true /\ 0 < length (words loaded)
      /\ wordDisplay_textContent loaded = msg_ready
      /\ (words loaded !! currentWordIndex loaded
          = Some (wordDisplay_textContent loaded)
          \/ wordDisplay_textContent loaded = msg_ready)).
Proof.
  intros ticked loaded.
  assert (Hp1 : isPlaying ticked = true) by (vm_compute; reflexivity).
  assert (Hl1 : 0 < length (words ticked)) by (vm_compute; lia).
  assert (Ht1 : wordDisplay_textContent ticked = lit "beta") by (vm_compute; reflexivity).
  assert (Hp2 : isPlaying loaded = true) by (vm_compute; reflexivity).
  assert (Hl2 : 0 < length (words loaded)) by (vm_compute; lia).
  assert (Ht2 : wordDisplay_textContent loaded = msg_ready) by (vm_compute; reflexivity).
  split.
  - exact (conj Hp1 (conj Hl1 (conj Ht1
             (display_shows_current_word plain_page
                [InputText (lit "alpha beta gamma"); ClickPlay; TimerFires 1]
                Hp1 Hl1)))).
  - exact (conj Hp2 (conj Hl2 (conj Ht2
             (display_shows_current_word plain_page
                [InputText (lit "alpha beta gamma"); ClickPlay; TimerFires 1;
                 InputText (lit "delta")]
                Hp2 Hl2)))).
Defined.

End Presentation.

(** ** Further properties of the reader *)

Section Reader.

Implicit Types (s : state) (text value : jsstring) (e : event) (html : markup).

(** Two states with the same fields are equal. *)
Lemma state_ext s1 s2 :
  words s1 = words s2 -> currentWordIndex s1 = currentWordIndex s2 ->
  isPlaying s1 = isPlaying s2 -> intervalId s1 = intervalId s2 ->
  wpm s1 = wpm s2 ->
  wordDisplay_textContent s1 = wordDisplay_textContent s2 ->
  wordDisplay_fontSize s1 = wordDisplay_fontSize s2 ->
  playBtn_disabled s1 = playBtn_disabled s2 ->
  pauseBtn_disabled s1 = pauseBtn_disabled s2 ->
  progressBar_width s1 = progressBar_width s2 ->
  wordCounter_textContent s1 = wordCounter_textContent s2 ->
  wpmValue_textContent s1 = wpmValue_textContent s2 ->
  timers s1 = timers s2 -> next_handle s1 = next_handle s2 ->
  alerts s1 = alerts s2 ->
  s1 = s2.
Proof. destruct s1, s2. cbn. intros. by subst. Qed.

Lemma pause_pause s : pause (pause s) = pause s.
Proof. rewrite !pause_spec. apply state_ext; fields; reflexivity. Qed.

Lemma pause_reset s : pause (reset s) = reset s.
Proof.
  unfold reset, updateWordCounter, updateProgress. cbv zeta.
  rewrite !pause_spec. fields.
  destruct (length (words s) =? 0); apply state_ext; fields; reflexivity.
Qed.

Lemma tick_fields s :
  words (tick s) = words s /\ wpm (tick s) = wpm s /\ alerts (tick s) = alerts s.
Proof.
  rewrite tick_cases.
  destruct (length (words s) <=? S (currentWordIndex s)).
  - by rewrite pause_spec.
  - by destruct (displayWord_frame (set_currentWordIndex (S (currentWordIndex s)) s))
      as (-> & _ & _ & _ & -> & _ & _ & _ & _ & ->).
Qed.

(** Words, rate and alerts after [play], with or without words loaded. *)
Lemma play_frame s :
  words (play s) = words s /\ wpm (play s) = wpm s
  /\ alerts (play s)
     = (if length (words s) =? 0 then msg_enter_text :: alerts s else alerts s).
Proof.
  destruct (Nat.eqb_spec (length (words s)) 0) as [Hz|Hnz].
  - by rewrite (play_empty s Hz).
  - by destruct (play_fields s) as (-> & _ & _ & _ & _ & -> & _ & _ & _ & -> & _);
      [lia |].
Qed.

Lemma updateWPM_frame value s :
  words (updateWPM value s) = words s
  /\ wpm (updateWPM value s) = parseInt value
  /\ alerts (updateWPM value s)
     = (if isPlaying s && (length (words s) =? 0)
        then msg_enter_text :: alerts s else alerts s).
Proof.
  rewrite updateWPM_cases. destruct (isPlaying s); [| done]. cbn [andb].
  set (rated := set_wpmValue_textContent _ _).
  destruct (play_frame (pause rated)) as (-> & -> & ->).
  by rewrite pause_spec.
Qed.

(** X7.  The words and the rate after any event: only a text input changes the
    words, and only the slider changes the rate. *)
Theorem words_and_rate_after_event e s :
  words (handle e s)
  = match e with InputText text => tokenize text | _ => words s end
  /\ wpm (handle e s)
     = match e with SlideWPM value => parseInt value | _ => wpm s end.
Proof.
  destruct e as [text| | | |value|id]; cbn [handle].
  - by destruct (loadText_fields text s) as (-> & _ & _ & _ & -> & _).
  - destruct (playBtn_disabled s); [done |].
    by destruct (play_frame s) as (-> & -> & _).
  - destruct (pauseBtn_disabled s); [done | by rewrite pause_spec].
  - by destruct (reset_fields s) as (-> & _ & _ & _ & -> & _).
  - by destruct (updateWPM_frame value s) as (-> & -> & _).
  - destruct (timers s !! id); [| done].
    by destruct (tick_fields s) as (-> & -> & _).
Qed.

(** X6.  An event raises an alert only with no words loaded, and then the
    please-enter-text one; so no other alert is ever raised. *)
Theorem only_alert_is_enter_text html (events : list event) :
  Forall (fun message => message = msg_enter_text)
    (alerts (run events (new_RSVPReader html)))
  /\ (forall e s,
        alerts (handle e s) = alerts s
        \/ (length (words s) = 0
            /\ alerts (handle e s) = msg_enter_text :: alerts s)).
Proof.
  assert (Hstep : forall e s,
             alerts (handle e s) = alerts s
             \/ (length (words s) = 0
                 /\ alerts (handle e s) = msg_enter_text :: alerts s)).
  { intros e s. destruct e as [text| | | |value|id]; cbn [handle].
    - left. by destruct (loadText_fields text s) as (_ & _ & _ & _ & _ & _ & _ & _ & ->).
    - destruct (playBtn_disabled s); [by left |].
      destruct (play_frame s) as (_ & _ & ->).
      destruct (Nat.eqb_spec (length (words s)) 0); [by right | by left].
    - destruct (pauseBtn_disabled s); [by left | left; by rewrite pause_spec].
    - left. by destruct (reset_fields s) as (_ & _ & _ & _ & _ & _ & _ & _ & ->).
    - destruct (updateWPM_frame value s) as (_ & _ & ->).
      destruct (isPlaying s); [| by left]. cbn [andb].
      destruct (Nat.eqb_spec (length (words s)) 0); [by right | by left].
    - destruct (timers s !! id); [| by left].
      left. by destruct (tick_fields s) as (_ & _ & ->). }
  split; [| exact Hstep].
  assert (Hrun : forall s, Forall (fun message => message = msg_enter_text) (alerts s) ->
                           Forall (fun message => message = msg_enter_text)
                             (alerts (run events s))).
  { induction events as [|e events IH]; intros s Hs; [done |].
    cbn [run fold_left]. apply IH. destruct (Hstep e s) as [-> | [_ ->]]; [done | by constructor]. }
  apply Hrun. unfold new_RSVPReader, loadSampleText.
  destruct (loadText_fields sampleText
              {| words := []; currentWordIndex := 0; isPlaying := false;
                 intervalId := None; wpm := Int 250;
                 wordDisplay_textContent := html_wordDisplay html;
                 wordDisplay_fontSize := html_fontSize html;
                 playBtn_disabled := html_playBtn_disabled html;
                 pauseBtn_disabled := html_pauseBtn_disabled html;
                 progressBar_width := html_progress html;
                 wordCounter_textContent := html_wordCounter html;
                 wpmValue_textContent := html_wpmValue html;
                 timers := ∅; next_handle := 1%positive; alerts := [] |})
    as (_ & _ & _ & _ & _ & _ & _ & _ & ->).
  constructor.
Qed.

(** X8.  In every state the page can reach, a rate change moves neither the
    position nor the words, whether the reader is playing or not. *)
Theorem rate_change_keeps_position html (events : list event) value :
  let s := run events (new_RSVPReader html) in
  currentWordIndex (updateWPM value s) = currentWordIndex s
  /\ words (updateWPM value s) = words s.
Proof.
  intros s. destruct (updateWPM_frame value s) as (Hw & _). split; [| done].
  destruct (engine_inv_reachable html events) as (_ & _ & Hp). fold s in Hp.
  rewrite updateWPM_cases. destruct (isPlaying s) eqn:Hplaying; [| done].
  set (rated := set_wpmValue_textContent _ _).
  assert (Hpw : words (pause rated) = words s) by (by rewrite pause_spec).
  assert (Hpi : currentWordIndex (pause rated) = currentWordIndex s)
    by (by rewrite pause_spec).
  destruct (Nat.eq_dec (length (words s)) 0) as [Hz|Hnz].
  - rewrite play_empty by (by rewrite Hpw). done.
  - destruct (Hp ltac:(lia)) as [_ Hlt]. specialize (Hlt Hplaying).
    destruct (play_fields (pause rated)) as (_ & -> & _); [rewrite Hpw; lia |].
    rewrite Hpw, Hpi.
    by destruct (Nat.leb_spec (length (words s)) (currentWordIndex s)); [lia |].
Qed.



(** X10.  [pause] and [reset] are idempotent, and [reset] makes a preceding
    [pause] redundant. *)
Theorem pause_reset_idempotent s :
  pause (pause s) = pause s
  /\ reset (reset s) = reset s
  /\ reset (pause s) = reset s.
Proof.
  split; [apply pause_pause |]. split.
  - unfold reset at 1. rewrite pause_reset.
    unfold reset, updateWordCounter, updateProgress. cbv zeta.
    rewrite !pause_spec. fields.
    destruct (length (words s) =? 0) eqn:Hz; fields; rewrite ?Hz; fields;
      apply state_ext; fields; rewrite ?Hz; reflexivity.
  - unfold reset. by rewrite pause_pause.
Qed.

(** X11.  A load of a text that has a word leaves no trace of the load before
    it. *)
Theorem later_load_overrides text1 text2 s :
  is_blank text2 = false ->
  loadText text2 (loadText text1 s) = loadText text2 s.
Proof.
  intros Hblank. unfold loadText at 1 3. rewrite Hblank. cbv zeta.
  destruct (loadText_fields text1 s) as (_ & _ & Hp & Hid & Hr & Hb & Ht & Hn & Ha).
  assert (Hrest : wordDisplay_fontSize (loadText text1 s) = wordDisplay_fontSize s
                  /\ pauseBtn_disabled (loadText text1 s) = pauseBtn_disabled s
                  /\ wpmValue_textContent (loadText text1 s) = wpmValue_textContent s).
  { unfold loadText, updateWordCounter, updateProgress.
    destruct (is_blank text1); fields; [done |].
    destruct (length (split_words text1) =? 0); fields;
      by destruct (0 <? length (split_words text1)). }
  destruct Hrest as (Hf & Hpb & Hl).
  pose proof (tokenize_nonblank text2 Hblank) as Hne.
  unfold tokenize in Hne. rewrite Hblank in Hne.
  assert (Hlen : (length (split_words text2) =? 0) = false
                 /\ (0 <? length (split_words text2)) = true).
  { destruct (split_words text2); [done | by split]. }
  destruct Hlen as (Hz & Hpos).
  unfold updateWordCounter, updateProgress. fields. rewrite Hz. fields.
  rewrite Hpos.
  apply state_ext; fields; done.
Qed.

(** The theorem at two loads into a fresh reader. *)
Lemma later_load_overrides_witness :
  is_blank (lit "second text") = false
  /\ loadText (lit "second text") (loadText (lit "first") (new_RSVPReader plain_page))
     = loadText (lit "second text") (new_RSVPReader plain_page).
Proof.
  assert (Hblank : is_blank (lit "second text") = false) by reflexivity.
  exact (conj Hblank
           (later_load_overrides (lit "first") (lit "second text")
              (new_RSVPReader plain_page) Hblank)).
Defined.

Lemma run_snoc (events : list event) e s :
  run (events ++ [e]) s = handle e (run events s).
Proof. unfold run. by rewrite fold_left_app. Qed.

(** The state [k] ticks after a successful [play] from a stopped state that
    satisfies the invariant. *)
Lemma playback_after_ticks s (k : nat) :
  engine_inv s -> isPlaying s = false -> 0 < length (words s) ->
  let id := next_handle s in
  let start :=
    if length (words s) <=? currentWordIndex s then 0 else currentWordIndex s in
  let s' := run (repeat (TimerFires id) k) (play s) in
  words s' = words s
  /\ (if start + k <? length (words s)
      then currentWordIndex s' = start + k
           /\ words s !! (start + k) = Some (wordDisplay_textContent s')
           /\ isPlaying s' = true
           /\ intervalId s' = Some id
           /\ timers s' = {[ id := msPerWord s ]}
      else currentWordIndex s' = length (words s)
           /\ wordDisplay_textContent s' = msg_finished
           /\ isPlaying s' = false
           /\ intervalId s' = None
           /\ timers s' = ∅).
Proof.
  intros (Ht & _) Hidle Hlen id start.
  assert (Hnone : timers s = ∅).
  { unfold timer_ok in Ht. rewrite Hidle in Ht.
    destruct (intervalId s); by destruct Ht. }
  destruct (play_fields s Hlen)
    as (Hw & Hi & Hlt & Hpl & Hid & _ & _ & Htm & _ & _ & Htext).
  fold start in Hi, Hlt, Htext. fold id in Hid, Htm.
  rewrite Hnone, insert_empty in Htm.
  induction k as [|k IH]; cbv zeta.
  - cbn [repeat run fold_left]. rewrite Nat.add_0_r.
    destruct (Nat.ltb_spec start (length (words s))) as [_|]; [| lia].
    rewrite Htext. split; [done |]. split; [done |].
    split; [by apply lookup_nth | done].
  - replace (repeat (TimerFires id) (S k))
      with (repeat (TimerFires id) k ++ [TimerFires id])
      by (symmetry; apply (repeat_cons k (TimerFires id))).
    rewrite run_snoc. cbv zeta in IH.
    set (sk := run (repeat (TimerFires id) k) (play s)) in *.
    destruct IH as (Hwk & IH). cbn [handle].
    destruct (Nat.ltb_spec (start + k) (length (words s))) as [Hin|Hout].
    + destruct IH as (Hik & _ & Hpk & Hidk & Htk).
      rewrite Htk, lookup_singleton_eq, tick_cases, Hwk, Hik.
      replace (start + S k) with (S (start + k)) by lia.
      destruct (Nat.leb_spec (length (words s)) (S (start + k))) as [Hend|Hmore].
      * destruct (Nat.ltb_spec (S (start + k)) (length (words s))); [lia |].
        rewrite pause_spec. fields. rewrite Hwk, Hidk, Htk.
        split; [done |]. split; [lia |]. split; [done |]. split; [done |].
        split; [done | apply delete_singleton_eq].
      * destruct (Nat.ltb_spec (S (start + k)) (length (words s))); [| lia].
        set (advanced := set_currentWordIndex (S (start + k)) sk).
        destruct (displayWord_frame advanced)
          as (-> & -> & -> & -> & _ & _ & _ & -> & _).
        rewrite displayWord_text by (subst advanced; fields; by rewrite Hwk).
        subst advanced. fields. rewrite Hwk.
        split; [done |]. split; [done |]. split; [by apply lookup_nth | done].
    + destruct IH as (Hik & Htxt & Hpk & Hidk & Htk).
      rewrite Htk, lookup_empty.
      destruct (Nat.ltb_spec (start + S k) (length (words s))); [lia | done].
Qed.

(** X5.  Playback from a stopped reader shows every word from the starting
    position on, one per tick and in order, then the finished message:
    after [k] ticks of the new timer the reader is at the [k]-th word past
    the start, still playing on that one timer, or, once the words are
    used up, stopped at the end with no timer, where later ticks change
    nothing. *)
Theorem playback_shows_each_word_in_order html (events : list event) (k : nat) :
  let s := run events (new_RSVPReader html) in
  isPlaying s = false ->
  0 < length (words s) ->
  let id := next_handle s in
  let start :=
    if length (words s) <=? currentWordIndex s then 0 else currentWordIndex s in
  let s' := run (repeat (TimerFires id) k) (play s) in
  words s' = words s
  /\ (if start + k <? length (words s)
      then currentWordIndex s' = start + k
           /\ words s !! (start + k) = Some (wordDisplay_textContent s')
           /\ isPlaying s' = true
           /\ intervalId s' = Some id
           /\ timers s' = {[ id := msPerWord s ]}
      else currentWordIndex s' = length (words s)
           /\ wordDisplay_textContent s' = msg_finished
           /\ isPlaying s' = false
           /\ intervalId s' = None
           /\ timers s' = ∅).
Proof.
  intros s Hidle Hlen.
  apply (playback_after_ticks s k (engine_inv_reachable html events) Hidle Hlen).
Qed.

(** The theorem at a reader paused on the second of three words: the first
    tick after [play] shows the third word. *)
Lemma playback_shows_each_word_in_order_witness :
  let s := run [InputText (lit "alpha beta gamma"); ClickPlay; TimerFires 1;
                ClickPause] (new_RSVPReader plain_page) in
  let s' := run (repeat (TimerFires (next_handle s)) 1) (play s) in
  (isPlaying s = false /\ 0 < length (words s))
  /\ words s' = words s
  /\ (if (if length (words s) <=? currentWordIndex s
          then 0 else currentWordIndex s) + 1 <? length (words s)
      then currentWordIndex s'
           = (if length (words s) <=? currentWordIndex s
              then 0 else currentWordIndex s) + 1
           /\ words s !! ((if length (words s) <=? currentWordIndex s
                           then 0 else currentWordIndex s) + 1)
              = Some (wordDisplay_textContent s')
           /\ isPlaying s' = true
           /\ intervalId s' = Some (next_handle s)
           /\ timers s' = {[ next_handle s := msPerWord s ]}
      else currentWordIndex s' = length (words s)
           /\ wordDisplay_textContent s' = msg_finished
           /\ isPlaying s' = false
           /\ intervalId s' = None
           /\ timers s' = ∅).
Proof.
  intros s s'.
  assert (Hidle : isPlaying s = false) by (vm_compute; reflexivity).
  assert (Hlen : 0 < length (words s)) by (vm_compute; lia).
  exact (conj (conj Hidle Hlen)
           (playback_shows_each_word_in_order plain_page
              [InputText (lit "alpha beta gamma"); ClickPlay; TimerFires 1;
               ClickPause] 1 Hidle Hlen)).
Defined.

(** X4.  An article that passes the length test of [fetchFromURL] always loads:
    extracted text of 50 code units or more has a word, so [loadText] takes
    its second branch, stores the words of the element's text, sets the
    position to 0 and shows the ready message, raising nothing. *)
Theorem accepted_article_loads_words (content : jsstring -> jsstring)
    (html : jsstring) s :
  let text := extractTextFromHTML content html in
  50 <= length text ->
  let s' := loadText text s in
  words s' = tokenize (content html)
  /\ 0 < length (words s')
  /\ currentWordIndex s' = 0
  /\ wordDisplay_textContent s' = msg_ready
  /\ wordCounter_textContent s' = (0, length (words s'))
  /\ alerts s' = alerts s.
Proof.
  intros text Hlong s'. subst s'.
  assert (Htokens : tokenize text = tokenize (content html)).
  { subst text. rewrite extractTextFromHTML_join.
    apply tokenize_join_spaces, tokenize_words_ok. }
  assert (Hblank : is_blank text = false).
  { destruct (is_blank text) eqn:Hblank; [| done].
    assert (Hnil : tokenize text = []) by (unfold tokenize; by rewrite Hblank).
    rewrite Htokens in Hnil. subst text.
    rewrite extractTextFromHTML_join, Hnil in Hlong. simpl in Hlong. lia. }
  pose proof (loadText_shown text s) as Hshown. rewrite Hblank in Hshown.
  destruct Hshown as (Htext & Hcounter & _).
  destruct (loadText_fields text s) as (Hw & Hi & _ & _ & _ & _ & _ & _ & Ha).
  rewrite Hblank in Hi. rewrite Hw, Hi, Htext, Hcounter, Ha, Htokens.
  pose proof (tokenize_nonblank text Hblank) as Hne. rewrite Htokens in Hne.
  repeat split; try done.
  destruct (tokenize (content html)); [done | simpl; lia].
Qed.

(** The theorem at the sample text taken as an element's text. *)
Lemma accepted_article_loads_words_witness :
  let text := extractTextFromHTML (fun markup => markup) sampleText in
  let s' := loadText text (new_RSVPReader plain_page) in
  50 <= length text
  /\ words s' = tokenize sampleText
  /\ 0 < length (words s')
  /\ currentWordIndex s' = 0.
Proof.
  intros text s'.
  assert (Hlong : 50 <= length text) by (apply Nat.leb_le; vm_compute; reflexivity).
  destruct (accepted_article_loads_words (fun markup => markup) sampleText
              (new_RSVPReader plain_page) Hlong) as (Hw & Hlen & Hi & _).
  exact (conj Hlong (conj Hw (conj Hlen Hi))).
Defined.

End Reader.
